(** * mibot: a chat bot that lists cluster workloads and pods

    Shallow embedding of [mibot.go] and the properties of its command
    matcher and of its event dispatch loop.

    - Go strings are byte strings: [string] of the Standard Library.
    - [map[string]string] is [gmap string string].
    - The [regexp] package is modelled by a backtracking matcher over the
      syntax tree of the two patterns; Go documents its matches as the
      ones a backtracking search finds first (leftmost, then by priority).
    - The chat transport, the process output and the orchestration client
      are effects, recorded in a trace. *)

From Stdlib Require Import String Ascii List ZArith Lia Bool DecimalString.
From stdpp Require Import gmap strings list.

Import ListNotations.
Local Open Scope string_scope.
Local Open Scope nat_scope.

#[local] Arguments String.append !_ _ : simpl nomatch.

(** ** Byte strings *)

Module GoString.

Definition newline : ascii := Ascii.ascii_of_nat 10.
Definition tabulation : ascii := Ascii.ascii_of_nat 9.

Definition nl : string := String newline EmptyString.
Definition tab : string := String tabulation EmptyString.

(** [s[n:]] for [n <= len(s)] *)
Fixpoint drop (n : nat) (s : string) : string :=
  match n, s with
  | S n', String _ s' => drop n' s'
  | _, _ => s
  end.

(** [s[:n]] for [n <= len(s)] *)
Fixpoint take (n : nat) (s : string) : string :=
  match n, s with
  | S n', String c s' => String c (take n' s')
  | _, _ => EmptyString
  end.

(** [s[b:e]] *)
Definition slice (s : string) (b e : nat) : string := take (e - b) (drop b s).

(** [strings.HasPrefix(s, prefix)] *)
Fixpoint HasPrefix (s prefix : string) {struct prefix} : bool :=
  match prefix, s with
  | EmptyString, _ => true
  | String p prefix', String c s' => Ascii.eqb c p && HasPrefix s' prefix'
  | String _ _, EmptyString => false
  end.

(** [strings.Contains(s, substr)]: [substr] starts at some offset of [s]. *)
Fixpoint Contains (s substr : string) : bool :=
  HasPrefix s substr ||
  match s with
  | EmptyString => false
  | String _ s' => Contains s' substr
  end.

(** [strings.IndexByte(s, c) >= 0] *)
Fixpoint hasByte (c : ascii) (s : string) : bool :=
  match s with
  | EmptyString => false
  | String d s' => Ascii.eqb d c || hasByte c s'
  end.

(** the first line of [s]: everything before its first line feed *)
Fixpoint firstLine (s : string) : string :=
  match s with
  | EmptyString => EmptyString
  | String c s' => if Ascii.eqb c newline then EmptyString else String c (firstLine s')
  end.

End GoString.
Import GoString.

(** ** The regexp package *)

Module Regexp.

(** The syntax tree of a parsed pattern ([regexp/syntax.Regexp]), with the
    operators the two patterns of the bot use. [OpAnyCharNotNL] is taken
    byte by byte: the line feed is a single byte and no part of a longer
    UTF-8 sequence, so a run of it ends where a run of runes ends. *)
Inductive Regexp : Type :=
| OpEmptyMatch
| OpLiteral (w : string)
| OpAnyCharNotNL
| OpConcat (r1 r2 : Regexp)
| OpQuest (r : Regexp)
| OpStar (r : Regexp)
| OpCapture (cap : nat) (name : string) (r : Regexp).

(** [re.NumSubexp()]: the largest capture index. *)
Fixpoint NumSubexp (r : Regexp) : nat :=
  match r with
  | OpEmptyMatch | OpLiteral _ | OpAnyCharNotNL => 0
  | OpConcat r1 r2 => Nat.max (NumSubexp r1) (NumSubexp r2)
  | OpQuest r1 | OpStar r1 => NumSubexp r1
  | OpCapture cap _ r1 => Nat.max cap (NumSubexp r1)
  end.

(** The names of the capture groups, written into [names] at their index. *)
Fixpoint capNames (r : Regexp) (names : list string) : list string :=
  match r with
  | OpEmptyMatch | OpLiteral _ | OpAnyCharNotNL => names
  | OpConcat r1 r2 => capNames r2 (capNames r1 names)
  | OpQuest r1 | OpStar r1 => capNames r1 names
  | OpCapture cap name r1 => capNames r1 (<[cap := name]> names)
  end.

(** [re.SubexpNames()]: element 0 is always empty, an unnamed group has
    the empty name. *)
Definition SubexpNames (r : Regexp) : list string :=
  capNames r (replicate (1 + NumSubexp r) EmptyString).

(** Capture registers: for each group the offsets where it starts and ends,
    [None] while the group has not taken part in the match (Go: -1). *)
Definition Caps : Type := list (option (nat * nat)).

Definition Cont : Type := string -> nat -> Caps -> option Caps.

(** The greedy loop of [r*]: one more [r] first, which has to consume input,
    and only then the rest of the pattern. Every round consumes a byte, so
    the fuel [S (length s)] that [backtrack] gives the loop is never used
    up. *)
Fixpoint star (step : string -> nat -> Caps -> Cont -> option Caps)
         (fuel : nat) (s : string) (pos : nat) (cap : Caps) (k : Cont)
  : option Caps :=
  match fuel with
  | O => k s pos cap
  | S fuel' =>
      match step s pos cap
              (fun s' pos' cap' =>
                 if Nat.eqb pos' pos then None else star step fuel' s' pos' cap' k) with
      | Some res => Some res
      | None => k s pos cap
      end
  end.

(** [backtrack r s pos cap k]: match [r] at the front of [s], the input
    from offset [pos] on, then continue with [k]; alternatives are tried
    in priority order and the first success is the result. *)
Fixpoint backtrack (r : Regexp) (s : string) (pos : nat) (cap : Caps) (k : Cont)
  {struct r} : option Caps :=
  match r with
  | OpEmptyMatch => k s pos cap
  | OpLiteral w =>
      if HasPrefix s w then k (drop (String.length w) s) (pos + String.length w) cap
      else None
  | OpAnyCharNotNL =>
      match s with
      | String c s' => if Ascii.eqb c newline then None else k s' (S pos) cap
      | EmptyString => None
      end
  | OpConcat r1 r2 =>
      backtrack r1 s pos cap (fun s' pos' cap' => backtrack r2 s' pos' cap' k)
  | OpQuest r1 =>
      match backtrack r1 s pos cap k with
      | Some res => Some res
      | None => k s pos cap
      end
  | OpStar r1 => star (backtrack r1) (S (String.length s)) s pos cap k
  | OpCapture i _ r1 =>
      backtrack r1 s pos cap (fun s' pos' cap' => k s' pos' (<[i := Some (pos, pos')]> cap'))
  end.

(** The match that starts at offset [pos]; group 0 is the whole match. *)
Definition matchAt (r : Regexp) (s : string) (pos : nat) : option Caps :=
  backtrack r s pos (replicate (1 + NumSubexp r) None)
    (fun _ pos' cap' => Some (<[0 := Some (pos, pos')]> cap')).

(** Unanchored search: the leftmost offset at which the pattern matches. *)
Fixpoint search (r : Regexp) (s : string) (pos : nat) : option Caps :=
  match matchAt r s pos with
  | Some res => Some res
  | None =>
      match s with
      | EmptyString => None
      | String _ s' => search r s' (S pos)
      end
  end.

(** [re.doExecute]: [None] is the nil slice of "no match". *)
Definition doExecute (r : Regexp) (s : string) : option Caps := search r s 0.

(** [re.MatchString(s)] *)
Definition MatchString (r : Regexp) (s : string) : bool :=
  match doExecute r s with Some _ => true | None => false end.

(** [re.FindStringSubmatch(s)]: nil when there is no match, else a slice of
    [1 + NumSubexp] strings, empty for a group that did not take part. *)
Definition FindStringSubmatch (r : Regexp) (s : string) : option (list string) :=
  match doExecute r s with
  | None => None
  | Some a =>
      Some (map (fun i => match a !! i with
                          | Some (Some (b, e)) => slice s b e
                          | _ => EmptyString
                          end)
                (seq 0 (1 + NumSubexp r)))
  end.

(** The words a pattern matches, without priorities and captures. *)
Fixpoint lang (r : Regexp) (w : string) : Prop :=
  match r with
  | OpEmptyMatch => w = EmptyString
  | OpLiteral x => w = x
  | OpAnyCharNotNL => exists c, Ascii.eqb c newline = false /\ w = String c EmptyString
  | OpConcat r1 r2 => exists u v, w = u ++ v /\ lang r1 u /\ lang r2 v
  | OpQuest r1 => lang r1 w \/ w = EmptyString
  | OpStar r1 =>
      exists ws, Forall (lang r1) ws /\ w = fold_right String.append EmptyString ws
  | OpCapture _ _ r1 => lang r1 w
  end.

(** [OpConcat] of a list of sub-expressions *)
Fixpoint concat (rs : list Regexp) : Regexp :=
  match rs with
  | [] => OpEmptyMatch
  | [r] => r
  | r :: rs' => OpConcat r (concat rs')
  end.

End Regexp.
Import Regexp.

(** ** The two command patterns (mibot.go, lines 40-41) *)

Definition getDeployPattern : string :=
  "k(ubectl)? get deploy(ment)?(s)? -n (?P<namespace>.*)".

Definition getPodPattern : string :=
  "k(ubectl)? get po(d)?(s)? -n (?P<namespace>.*)".

(** [regexp.MustCompile(getDeployPattern)] *)
Definition getDeployRegexp : Regexp :=
  concat [ OpLiteral "k";
           OpQuest (OpCapture 1 EmptyString (OpLiteral "ubectl"));
           OpLiteral " get deploy";
           OpQuest (OpCapture 2 EmptyString (OpLiteral "ment"));
           OpQuest (OpCapture 3 EmptyString (OpLiteral "s"));
           OpLiteral " -n ";
           OpCapture 4 "namespace" (OpStar OpAnyCharNotNL) ].

(** [regexp.MustCompile(getPodPattern)] *)
Definition getPodRegexp : Regexp :=
  concat [ OpLiteral "k";
           OpQuest (OpCapture 1 EmptyString (OpLiteral "ubectl"));
           OpLiteral " get po";
           OpQuest (OpCapture 2 EmptyString (OpLiteral "d"));
           OpQuest (OpCapture 3 EmptyString (OpLiteral "s"));
           OpLiteral " -n ";
           OpCapture 4 "namespace" (OpStar OpAnyCharNotNL) ].

(** ** Panics, [int] and [strconv] *)

Definition error : Type := string.

Inductive PanicValue : Type :=
| PanicError (err : error)
| IndexOutOfRange (index len : nat).

Inductive result (A : Type) : Type :=
| Ok (a : A)
| Panic (v : PanicValue).
Arguments Ok {A} a.
Arguments Panic {A} v.

(** Go's [int] on the 64-bit targets: two's complement wrap-around. *)
Definition int_wrap (z : Z) : Z := ((z + 2 ^ 63) mod 2 ^ 64 - 2 ^ 63)%Z.

(** [n++] *)
Definition int_incr (n : Z) : Z := int_wrap (n + 1).

(** [len(l)] *)
Definition len {A} (l : list A) : Z := Z.of_nat (length l).

(** [strconv.Itoa] *)
Definition Itoa (z : Z) : string := NilZero.string_of_int (Z.to_int z).

(** [match[i]] on the slice a submatch search returned; nil has length 0. *)
Definition index_slice (match_ : option (list string)) (i : nat) : result string :=
  match match_ with
  | None => Panic (IndexOutOfRange i 0)
  | Some l =>
      match l !! i with
      | Some v => Ok v
      | None => Panic (IndexOutOfRange i (length l))
      end
  end.

(** ** regexpSubexpMatch (mibot.go, lines 145-155) *)

(** The [for i, name := range r.SubexpNames()] loop, from index [i] on. *)
Fixpoint rangeSubexpNames (match_ : option (list string)) (i : nat) (names : list string)
         (subexpMatchMap : gmap string string) : result (gmap string string) :=
  match names with
  | [] => Ok subexpMatchMap
  | name :: names' =>
      if negb (Nat.eqb i 0) then
        match index_slice match_ i with
        | Ok v => rangeSubexpNames match_ (S i) names' (<[name := v]> subexpMatchMap)
        | Panic p => Panic p
        end
      else rangeSubexpNames match_ (S i) names' subexpMatchMap
  end.

Definition regexpSubexpMatch (r : Regexp) (str : string) : result (gmap string string) :=
  let match_ := FindStringSubmatch r str in
  rangeSubexpNames match_ 0 (SubexpNames r) ∅.

(** [args[key]]: a missing key reads as the empty string. *)
Definition map_index (args : gmap string string) (key : string) : string :=
  default EmptyString (args !! key).

(** ** The collaborators *)

(** The API objects, with the fields the bot reads and the declared
    containers of a pod. *)
Record Deployment : Type := { Deployment_Name : string }.

Record ContainerStateRunning : Type := { StartedAt : string }.

(** [State.Running] is a pointer: [None] is nil. *)
Record ContainerState : Type := { Running : option ContainerStateRunning }.

Record ContainerStatus : Type :=
  { ContainerStatus_Name : string; State : ContainerState }.

Record Container : Type := { Container_Name : string; Image : string }.

Record PodSpec : Type := { Containers : list Container }.

Record PodStatus : Type :=
  { Phase : string; ContainerStatuses : list ContainerStatus }.

Record Pod : Type := { Pod_Name : string; Spec : PodSpec; Status : PodStatus }.

(** The orchestration client: the two list calls on a namespace, with empty
    list options. *)
Record Clientset : Type :=
  { Deployments_List : string -> error + list Deployment;
    Pods_List : string -> error + list Pod }.

(** The events of the chat transport that the type switch tells apart. *)
Inductive Event : Type :=
| HelloEvent
| ConnectedEvent
| MessageEvent (Text Channel : string)
| PresenceChangeEvent (Presence User : string)
| LatencyReport (Value : Z)
| DesktopNotificationEvent (Title Content : string)
| RTMError (Code : Z) (Msg : string)
| InvalidAuthEvent
| OtherEvent (kind : string).

(** [ev.Error()] of an [RTMError] *)
Definition RTMError_Error (Code : Z) (Msg : string) : string :=
  "Code " ++ Itoa Code ++ " - " ++ Msg.

(** An argument of a [fmt.Printf] call. *)
Inductive Arg : Type :=
| ArgString (s : string)
| ArgDuration (d : Z)
| ArgEvent (ev : Event).

(** What the bot does to the outside, in order. *)
Inductive Effect : Type :=
| Printf (format : string) (args : list Arg)
| SendMessage (text channel : string)
| ListDeployments (namespace : string)
| ListPods (namespace : string).

Definition Trace : Type := list Effect.

(** ** Effects and panics *)

Definition io (A : Type) : Type := Trace -> result A * Trace.

#[export] Instance io_ret : MRet io := fun A a t => (Ok a, t).

#[export] Instance io_bind : MBind io :=
  fun A B f m t =>
    match m t with
    | (Ok a, t') => f a t'
    | (Panic v, t') => (Panic v, t')
    end.

Definition emit (e : Effect) : io unit := fun t => (Ok tt, (t ++ [e])%list).

Definition panic {A} (v : PanicValue) : io A := fun t => (Panic v, t).

Definition lift {A} (r : result A) : io A := fun t => (r, t).

(** How the body of the loop leaves: on to the next event, or [return]. *)
Inductive Control : Type := Next | Return.

(** ** The replies *)

Definition fence : string := "```".

Definition helpText : string :=
  "```" ++ nl ++ "kubectl get deploy -n $namespace" ++ nl
        ++ "kubectl get po -n $namespace" ++ nl ++ "```".

Definition aliveText : string :=
  "I'm mibot. I'm alive, but idk what you want from me! Try help? :narwhal-dancing:".

(** lines 78-82: the builder after the loop over [list.Items] *)
Definition formatDeployments (items : list Deployment) : string :=
  let deployments := EmptyString ++ (fence ++ nl) in
  let deployments :=
    fold_left (fun b d => b ++ (Deployment_Name d ++ nl)) items deployments in
  deployments ++ fence.

(** lines 96-101: the count of the container statuses whose state is running *)
Definition runningContainers (po : Pod) : Z :=
  fold_left (fun n container =>
               match Running (State container) with
               | Some _ => int_incr n
               | None => n
               end)
            (ContainerStatuses (Status po)) 0%Z.

(** line 102: what the builder receives for one pod *)
Definition podLine (po : Pod) : string :=
  Pod_Name po ++ tab ++ Phase (Status po) ++ tab
    ++ Itoa (runningContainers po) ++ "/"
    ++ Itoa (len (ContainerStatuses (Status po))) ++ nl.

(** lines 94-104 *)
Definition formatPods (items : list Pod) : string :=
  let pods := EmptyString ++ (fence ++ nl) in
  let pods := fold_left (fun b po => b ++ podLine po) items pods in
  pods ++ fence.

(** ** The dispatcher (mibot.go, lines 54-142) *)

Section Dispatcher.

Variable clientset : Clientset.
(** [rtm.GetInfo().User.ID] *)
Variable botID : string.

Definition botTagString : string := "<@" ++ botID ++ ">".

Definition deploymentsClient_List (namespace : string) : io (error + list Deployment) :=
  emit (ListDeployments namespace) ;; mret (Deployments_List clientset namespace).

Definition podsClient_List (namespace : string) : io (error + list Pod) :=
  emit (ListPods namespace) ;; mret (Pods_List clientset namespace).

(** lines 63-111 *)
Definition handleMessage (Text Channel : string) : io Control :=
  if negb (Contains Text botTagString) then mret Next
  else if MatchString getDeployRegexp Text then
    args ← lift (regexpSubexpMatch getDeployRegexp Text);
    res ← deploymentsClient_List (map_index args "namespace");
    match res with
    | inl err => panic (PanicError err)
    | inr items =>
        let deployments := formatDeployments items in
        emit (Printf deployments []) ;;
        emit (SendMessage deployments Channel) ;;
        mret Next
    end
  else if MatchString getPodRegexp Text then
    args ← lift (regexpSubexpMatch getPodRegexp Text);
    res ← podsClient_List (map_index args "namespace");
    match res with
    | inl err => panic (PanicError err)
    | inr items =>
        let pods := formatPods items in
        emit (Printf pods []) ;;
        emit (SendMessage pods Channel) ;;
        mret Next
    end
  else if Contains Text "help" then
    emit (SendMessage helpText Channel) ;; mret Next
  else
    emit (SendMessage aliveText Channel) ;; mret Next.

(** The type switch on one event. *)
Definition dispatch (ev : Event) : io Control :=
  match ev with
  | HelloEvent => mret Next
  | ConnectedEvent => mret Next
  | MessageEvent Text Channel => handleMessage Text Channel
  | PresenceChangeEvent _ _ =>
      emit (Printf ("Presence Change: %v" ++ nl) [ArgEvent ev]) ;; mret Next
  | LatencyReport Value =>
      emit (Printf ("Current latency: %v" ++ nl) [ArgDuration Value]) ;; mret Next
  | DesktopNotificationEvent _ _ =>
      emit (Printf ("Desktop Notification: %v" ++ nl) [ArgEvent ev]) ;; mret Next
  | RTMError Code Msg =>
      emit (Printf ("Error: %s" ++ nl) [ArgString (RTMError_Error Code Msg)]) ;; mret Next
  | InvalidAuthEvent =>
      emit (Printf "Invalid credentials" []) ;; mret Return
  | OtherEvent _ => mret Next
  end.

(** The loop: [Running] until the body returns or panics. *)
Inductive LoopState : Type :=
| LoopRunning
| LoopTerminated
| LoopAborted (v : PanicValue).

Definition step (st : LoopState * Trace) (ev : Event) : LoopState * Trace :=
  match st with
  | (LoopRunning, t) =>
      match dispatch ev t with
      | (Ok Next, t') => (LoopRunning, t')
      | (Ok Return, t') => (LoopTerminated, t')
      | (Panic v, t') => (LoopAborted v, t')
      end
  | _ => st
  end.

(** [for msg := range rtm.IncomingEvents] on the events delivered so far. *)
Definition mainLoop (events : list Event) : LoopState * Trace :=
  fold_left step events (LoopRunning, []).

End Dispatcher.

(** The replies in a trace, and the queries in a trace. *)
Definition replies (t : Trace) : list (string * string) :=
  omap (fun e => match e with SendMessage text ch => Some (text, ch) | _ => None end) t.

Definition queries (t : Trace) : list Effect :=
  omap (fun e => match e with
                 | ListDeployments _ | ListPods _ => Some e
                 | _ => None
                 end) t.

(** * Specification-side definitions *)

(** ** Notions of the proofs *)

(** A string is its first line followed by nothing or by a line feed. *)
Definition lineEnd (z : string) : Prop :=
  z = EmptyString \/ exists z', z = String newline z'.

(** Soundness: a successful run has consumed a word of the pattern before
    its continuation succeeded. *)
Definition sound_step (L : string -> Prop)
           (step : string -> nat -> Caps -> Cont -> option Caps) : Prop :=
  forall s pos cap (k : Cont) res,
    step s pos cap k = Some res ->
    exists w s' pos' cap', s = w ++ s' /\ L w /\ k s' pos' cap' = Some res.

Definition deployHeads : list string :=
  [ "k get deploy -n "; "k get deploys -n ";
    "k get deployment -n "; "k get deployments -n ";
    "kubectl get deploy -n "; "kubectl get deploys -n ";
    "kubectl get deployment -n "; "kubectl get deployments -n " ].

Definition podHeads : list string :=
  [ "k get po -n "; "k get pos -n "; "k get pod -n "; "k get pods -n ";
    "kubectl get po -n "; "kubectl get pos -n ";
    "kubectl get pod -n "; "kubectl get pods -n " ].

(** A head is the byte k followed by bytes other than k. *)
Definition headShape (h : string) : bool :=
  match h with
  | String c h' => Ascii.eqb c "k" && negb (hasByte "k" h')
  | EmptyString => false
  end.

(** ** The command matcher as the specification describes it *)

(** A command with its extracted namespace. *)
Inductive Command : Type :=
| ListWorkloads (namespace : string)
| ListPodsOf (namespace : string)
| Help
| Unknown.

(** The namespace [regexpSubexpMatch] extracts with pattern [r]. *)
Definition namespaceOf (r : Regexp) (text : string) : string :=
  match regexpSubexpMatch r text with
  | Ok args => map_index args "namespace"
  | Panic _ => EmptyString
  end.

(** The first matching command, in the fixed priority order. *)
Definition classify (text : string) : Command :=
  if MatchString getDeployRegexp text then ListWorkloads (namespaceOf getDeployRegexp text)
  else if MatchString getPodRegexp text then ListPodsOf (namespaceOf getPodRegexp text)
  else if Contains text "help" then Help
  else Unknown.

(** What a command does: its query, then its one reply, or the panic. *)
Definition perform (clientset : Clientset) (c : Command) (Channel : string) : io Control :=
  fun t =>
    match c with
    | ListWorkloads ns =>
        match Deployments_List clientset ns with
        | inl err => (Panic (PanicError err), (t ++ [ListDeployments ns])%list)
        | inr items =>
            (Ok Next, (t ++ [ListDeployments ns; Printf (formatDeployments items) [];
                             SendMessage (formatDeployments items) Channel])%list)
        end
    | ListPodsOf ns =>
        match Pods_List clientset ns with
        | inl err => (Panic (PanicError err), (t ++ [ListPods ns])%list)
        | inr items =>
            (Ok Next, (t ++ [ListPods ns; Printf (formatPods items) [];
                             SendMessage (formatPods items) Channel])%list)
        end
    | Help => (Ok Next, (t ++ [SendMessage helpText Channel])%list)
    | Unknown => (Ok Next, (t ++ [SendMessage aliveText Channel])%list)
    end.

Inductive ListKind : Type := Workloads | Pods.

Definition patternOf (kind : ListKind) : Regexp :=
  match kind with Workloads => getDeployRegexp | Pods => getPodRegexp end.

Definition headsOf (kind : ListKind) : list string :=
  match kind with Workloads => deployHeads | Pods => podHeads end.

Definition commandOf (kind : ListKind) (namespace : string) : Command :=
  match kind with Workloads => ListWorkloads namespace | Pods => ListPodsOf namespace end.

Definition queryOf (kind : ListKind) (namespace : string) : Effect :=
  match kind with Workloads => ListDeployments namespace | Pods => ListPods namespace end.

(** The failure of the list call a text asks for, if it asks for one. *)
Definition listError (clientset : Clientset) (text : string) : option (Effect * error) :=
  match classify text with
  | ListWorkloads ns =>
      match Deployments_List clientset ns with
      | inl err => Some (ListDeployments ns, err)
      | inr _ => None
      end
  | ListPodsOf ns =>
      match Pods_List clientset ns with
      | inl err => Some (ListPods ns, err)
      | inr _ => None
      end
  | Help | Unknown => None
  end.

Definition isMessage (ev : Event) : bool :=
  match ev with MessageEvent _ _ => true | _ => false end.

Definition isPrintf (e : Effect) : bool :=
  match e with Printf _ _ => true | _ => false end.

(** ** The pod line as the specification describes it *)

(** The largest [int]; a slice is never longer. *)
Definition max_int : Z := (2 ^ 63 - 1)%Z.

Definition isRunning (container : ContainerStatus) : bool :=
  match Running (State container) with Some _ => true | None => false end.

(** The number of container statuses whose state is running. *)
Definition runningCount (po : Pod) : nat :=
  length (List.filter isRunning (ContainerStatuses (Status po))).

(** The reply line of a pod in the words of the specification, with the
    number of container statuses as the total. *)
Definition statusLine (po : Pod) : string :=
  Pod_Name po ++ tab ++ Phase (Status po) ++ tab
    ++ Itoa (Z.of_nat (runningCount po)) ++ "/"
    ++ Itoa (Z.of_nat (length (ContainerStatuses (Status po)))).

(** The same line with the declared containers of the pod as the total. *)
Definition declaredLine (po : Pod) : string :=
  Pod_Name po ++ tab ++ Phase (Status po) ++ tab
    ++ Itoa (Z.of_nat (runningCount po)) ++ "/"
    ++ Itoa (Z.of_nat (length (Containers (Spec po)))).

(** ** Concrete clusters, pods and traces *)

Definition clusterDown : Clientset :=
  {| Deployments_List := fun _ => inl "connection refused";
     Pods_List := fun _ => inl "connection refused" |}.

Definition apiWorker : list Deployment :=
  [ {| Deployment_Name := "api" |}; {| Deployment_Name := "worker" |} ].

Definition apiWorkerReply : string :=
  "```" ++ nl ++ "api" ++ nl ++ "worker" ++ nl ++ "```".

(** A client whose namespace prod holds the workloads api and worker. *)
Definition prodCluster : Clientset :=
  {| Deployments_List := fun ns =>
       if String.eqb ns "prod" then inr apiWorker else inl "namespace not found";
     Pods_List := fun _ => inl "forbidden" |}.

Definition prodLog : Trace :=
  [ ListDeployments "prod"; Printf apiWorkerReply []; SendMessage apiWorkerReply "C9" ].

Definition runningState : ContainerState := {| Running := Some {| StartedAt := "2020-01-31" |} |}.
Definition waitingState : ContainerState := {| Running := None |}.

(** The pod api-1: phase Running, 2 of its 3 containers running. *)
Definition api1 : Pod :=
  {| Pod_Name := "api-1";
     Spec := {| Containers := [ {| Container_Name := "app"; Image := "app:1" |};
                                {| Container_Name := "proxy"; Image := "proxy:1" |};
                                {| Container_Name := "log"; Image := "log:1" |} ] |};
     Status := {| Phase := "Running";
                  ContainerStatuses :=
                    [ {| ContainerStatus_Name := "app"; State := runningState |};
                      {| ContainerStatus_Name := "proxy"; State := runningState |};
                      {| ContainerStatus_Name := "log"; State := waitingState |} ] |} |}.

(** A pending pod: 3 declared containers, no container status yet. *)
Definition web0 : Pod :=
  {| Pod_Name := "web-0";
     Spec := {| Containers := [ {| Container_Name := "app"; Image := "app:1" |};
                                {| Container_Name := "proxy"; Image := "proxy:1" |};
                                {| Container_Name := "log"; Image := "log:1" |} ] |};
     Status := {| Phase := "Pending"; ContainerStatuses := [] |} |}.

(** ** Notions of the further properties *)

(** The channels of the messages that carry the bot's mention, in the order
    of arrival. *)
Definition addressedChannels (botID : string) (events : list Event) : list string :=
  omap (fun ev => match ev with
                  | MessageEvent Text Channel =>
                      if Contains Text (botTagString botID) then Some Channel else None
                  | _ => None
                  end) events.

(** A client none of whose list calls fails. *)
Definition healthy (clientset : Clientset) : Prop :=
  forall ns,
    (exists items, Deployments_List clientset ns = inr items)
    /\ (exists items, Pods_List clientset ns = inr items).

Definition isAborted (st : LoopState) : bool :=
  match st with LoopAborted _ => true | _ => false end.

(** The lines of a workload listing: each name with its line feed. *)
Definition workloadLines (items : list Deployment) : string :=
  fold_right (fun d rest => (Deployment_Name d ++ nl) ++ rest) EmptyString items.

(** The text [s] occurs in [text]. *)
Definition occursIn (s text : string) : Prop :=
  exists a b, text = a ++ (s ++ b).


(** The number of bytes [c] in [s]; for the line feed, the number of lines
    that [s] ends. *)
Fixpoint countByte (c : ascii) (s : string) : nat :=
  match s with
  | EmptyString => 0
  | String d s' => (if Ascii.eqb d c then 1 else 0) + countByte c s'
  end.

(** What holds of the loop after the events [seen]: the replies went, in
    order, to the channels of the addressed messages, all of them while the
    loop runs; at most the query of the panic is without reply; a healthy
    client never aborts the loop; the loop returns on invalid-auth only. *)
Definition loopInvariant (clientset : Clientset) (botID : string)
           (seen : list Event) (s : LoopState * Trace) : Prop :=
  (exists pending,
      addressedChannels botID seen = (List.map snd (replies s.2) ++ pending)%list
      /\ (s.1 = LoopRunning -> pending = []))
  /\ length (queries s.2) <= length (replies s.2) + (if isAborted s.1 then 1 else 0)
  /\ (healthy clientset -> isAborted s.1 = false)
  /\ (s.1 = LoopTerminated -> In InvalidAuthEvent seen).

(** * Facts about byte strings *)

Section StringFacts.

Lemma append_assoc (a b c : string) : (a ++ b) ++ c = a ++ (b ++ c).
Proof. induction a as [|x a IH]; simpl; [reflexivity | now rewrite IH]. Qed.

Lemma append_empty_r (a : string) : a ++ EmptyString = a.
Proof. induction a as [|x a IH]; simpl; [reflexivity | now rewrite IH]. Qed.

Lemma length_append (a b : string) :
  String.length (a ++ b) = String.length a + String.length b.
Proof. induction a as [|x a IH]; simpl; [reflexivity | now rewrite IH]. Qed.

Lemma HasPrefix_append (w s : string) : HasPrefix (w ++ s) w = true.
Proof.
  induction w as [|x w IH]; simpl; [reflexivity |].
  now rewrite Ascii.eqb_refl, IH.
Qed.

Lemma HasPrefix_split (s w : string) :
  HasPrefix s w = true -> s = w ++ drop (String.length w) s.
Proof.
  revert s; induction w as [|x w IH]; intros s H; simpl in *; [reflexivity |].
  destruct s as [|c s]; [discriminate |].
  apply andb_true_iff in H as [Hc Hw].
  apply Ascii.eqb_eq in Hc; subst c.
  now rewrite <- (IH s Hw).
Qed.

Lemma HasPrefix_weaken (w s t : string) :
  HasPrefix s w = true -> HasPrefix (s ++ t) w = true.
Proof.
  revert s; induction w as [|x w IH]; intros s H; simpl in *; [reflexivity |].
  destruct s as [|c s]; [discriminate |]; simpl.
  apply andb_true_iff in H as [Hc Hw].
  rewrite Hc; simpl; auto.
Qed.

Lemma drop_append (w s : string) : drop (String.length w) (w ++ s) = s.
Proof. induction w as [|x w IH]; simpl; [now destruct s | exact IH]. Qed.

Lemma take_append (w s : string) : take (String.length w) (w ++ s) = w.
Proof.
  induction w as [|x w IH]; simpl; [now destruct s | now rewrite IH].
Qed.

Lemma slice_append (a b c : string) :
  slice (a ++ (b ++ c)) (String.length a) (String.length a + String.length b) = b.
Proof.
  unfold slice.
  replace (String.length a + String.length b - String.length a)
    with (String.length b) by lia.
  now rewrite drop_append, take_append.
Qed.

Lemma hasByte_append (c : ascii) (a b : string) :
  hasByte c (a ++ b) = hasByte c a || hasByte c b.
Proof.
  induction a as [|x a IH]; simpl; [reflexivity |].
  now rewrite IH, orb_assoc.
Qed.

(** A prefix [w] of [p ++ String c rest] lies inside [p], or it reaches
    the byte [c], which it then has at offset [length p]. *)
Lemma HasPrefix_cross (w p : string) (c : ascii) (rest : string) :
  HasPrefix (p ++ String c rest) w = true ->
  HasPrefix p w = true \/ exists v, w = p ++ String c v.
Proof.
  revert p; induction w as [|x w IH]; intros p H; simpl in *; [now left |].
  destruct p as [|d p]; simpl in *.
  - apply andb_true_iff in H as [Hc _].
    apply Ascii.eqb_eq in Hc; subst x. right; now exists w.
  - apply andb_true_iff in H as [Hc Hw].
    destruct (IH p Hw) as [Hp | [v ->]].
    + left; now rewrite Hc, Hp.
    + right. apply Ascii.eqb_eq in Hc; subst x. now exists v.
Qed.

Lemma firstLine_split (s : string) :
  exists z, s = firstLine s ++ z /\ lineEnd z.
Proof.
  induction s as [|c s [z [IH Hz]]]; simpl.
  - exists EmptyString; split; [reflexivity | now left].
  - destruct (Ascii.eqb c newline) eqn:Hc.
    + apply Ascii.eqb_eq in Hc; subst c.
      exists (String newline s); split; [reflexivity | right; now exists s].
    + exists z; split; [simpl; now rewrite <- IH | exact Hz].
Qed.

Lemma firstLine_no_newline (s : string) : hasByte newline (firstLine s) = false.
Proof.
  induction s as [|c s IH]; simpl; [reflexivity |].
  destruct (Ascii.eqb c newline) eqn:Hc; simpl; [reflexivity |].
  now rewrite Hc, IH.
Qed.

Lemma firstLine_id (s : string) : hasByte newline s = false -> firstLine s = s.
Proof.
  induction s as [|c s IH]; simpl; [reflexivity |].
  intros H. apply orb_false_iff in H as [Hc Hs].
  now rewrite Hc, IH.
Qed.

Lemma firstLine_append (x z : string) :
  hasByte newline x = false -> lineEnd z -> firstLine (x ++ z) = x.
Proof.
  induction x as [|c x IH]; simpl; intros Hx Hz.
  - destruct Hz as [-> | [z' ->]]; reflexivity.
  - apply orb_false_iff in Hx as [Hc Hx].
    now rewrite Hc, IH.
Qed.

End StringFacts.

(** * Facts about the matcher *)

Section MatcherFacts.

(** The equations of the matcher. *)
Lemma star_S step fuel s pos cap k :
  star step (S fuel) s pos cap k =
  match step s pos cap
          (fun s' pos' cap' =>
             if Nat.eqb pos' pos then None else star step fuel s' pos' cap' k) with
  | Some res => Some res
  | None => k s pos cap
  end.
Proof. reflexivity. Qed.

Lemma backtrack_literal w s pos cap (k : Cont) :
  backtrack (OpLiteral w) s pos cap k =
  if HasPrefix s w then k (drop (String.length w) s) (pos + String.length w) cap
  else None.
Proof. reflexivity. Qed.

Lemma backtrack_concat r1 r2 s pos cap (k : Cont) :
  backtrack (OpConcat r1 r2) s pos cap k =
  backtrack r1 s pos cap (fun s' pos' cap' => backtrack r2 s' pos' cap' k).
Proof. reflexivity. Qed.

Lemma backtrack_quest r1 s pos cap (k : Cont) :
  backtrack (OpQuest r1) s pos cap k =
  match backtrack r1 s pos cap k with
  | Some res => Some res
  | None => k s pos cap
  end.
Proof. reflexivity. Qed.

Lemma backtrack_star r1 s pos cap (k : Cont) :
  backtrack (OpStar r1) s pos cap k =
  star (backtrack r1) (S (String.length s)) s pos cap k.
Proof. reflexivity. Qed.

Lemma backtrack_capture i name r1 s pos cap (k : Cont) :
  backtrack (OpCapture i name r1) s pos cap k =
  backtrack r1 s pos cap
    (fun s' pos' cap' => k s' pos' (<[i := Some (pos, pos')]> cap')).
Proof. reflexivity. Qed.

Lemma backtrack_any_cons c s pos cap (k : Cont) :
  backtrack OpAnyCharNotNL (String c s) pos cap k =
  if Ascii.eqb c newline then None else k s (S pos) cap.
Proof. reflexivity. Qed.

(** The greedy loop of ["." star] runs to the end of the line. *)
Lemma star_any_line (x z : string) :
  hasByte newline x = false -> lineEnd z ->
  forall fuel pos cap (k : Cont) v,
    String.length x < fuel ->
    k z (pos + String.length x) cap = Some v ->
    star (backtrack OpAnyCharNotNL) fuel (x ++ z) pos cap k = Some v.
Proof.
  induction x as [|c x IH]; intros Hx Hz fuel pos cap k v Hfuel Hk;
    simpl in Hx, Hfuel, Hk.
  - rewrite Nat.add_0_r in Hk.
    change (EmptyString ++ z) with z.
    destruct fuel as [|fuel]; [exact Hk |].
    rewrite star_S.
    destruct Hz as [-> | [z' ->]]; simpl; exact Hk.
  - apply orb_false_iff in Hx as [Hc Hx].
    change (String c x ++ z) with (String c (x ++ z)).
    destruct fuel as [|fuel]; [lia |].
    rewrite star_S, backtrack_any_cons, Hc.
    replace (Nat.eqb (S pos) pos) with false
      by (symmetry; apply Nat.eqb_neq; lia).
    rewrite (IH Hx Hz fuel (S pos) cap k v); [reflexivity | lia |].
    now replace (S pos + String.length x) with (pos + S (String.length x)) by lia.
Qed.

(** The namespace group takes the rest of the line. *)
Lemma backtrack_namespace (i : nat) (name x z : string) :
  hasByte newline x = false -> lineEnd z ->
  forall pos cap (k : Cont) v,
    k z (pos + String.length x) (<[i := Some (pos, pos + String.length x)]> cap) = Some v ->
    backtrack (OpCapture i name (OpStar OpAnyCharNotNL)) (x ++ z) pos cap k = Some v.
Proof.
  intros Hx Hz pos cap k v Hk.
  rewrite backtrack_capture, backtrack_star.
  apply (star_any_line x z Hx Hz); [rewrite length_append; lia | exact Hk].
Qed.

Lemma star_sound (L : string -> Prop) step :
  sound_step L step ->
  forall fuel s pos cap (k : Cont) res,
    star step fuel s pos cap k = Some res ->
    exists ws s' pos' cap',
      Forall L ws /\ s = fold_right String.append EmptyString ws ++ s'
      /\ k s' pos' cap' = Some res.
Proof.
  intros Hstep fuel; induction fuel as [|fuel IH]; intros s pos cap k res H.
  - exists [], s, pos, cap; repeat split; [constructor | exact H].
  - rewrite star_S in H.
    destruct (step s pos cap _) as [res'|] eqn:Hs.
    + injection H as ->.
      apply Hstep in Hs as (w & s1 & pos1 & cap1 & -> & Hw & Hk).
      destruct (Nat.eqb pos1 pos); [discriminate |].
      apply IH in Hk as (ws & s2 & pos2 & cap2 & Hws & -> & Hk).
      exists (w :: ws), s2, pos2, cap2; repeat split.
      * now constructor.
      * simpl fold_right. now rewrite append_assoc.
      * exact Hk.
    + exists [], s, pos, cap; repeat split; [constructor | exact H].
Qed.

Lemma backtrack_sound (r : Regexp) : sound_step (lang r) (backtrack r).
Proof.
  induction r as [|x| |r1 IH1 r2 IH2|r1 IH1|r1 IH1|i name r1 IH1];
    intros s pos cap k res H.
  - exists EmptyString, s, pos, cap; now repeat split.
  - rewrite backtrack_literal in H.
    destruct (HasPrefix s x) eqn:Hp; [|discriminate].
    exists x, (drop (String.length x) s), (pos + String.length x), cap.
    repeat split; [now apply HasPrefix_split | exact H].
  - destruct s as [|c s]; [discriminate |].
    rewrite backtrack_any_cons in H.
    destruct (Ascii.eqb c newline) eqn:Hc; [discriminate |].
    exists (String c EmptyString), s, (S pos), cap; repeat split; [|exact H].
    now exists c.
  - rewrite backtrack_concat in H.
    apply IH1 in H as (u & s1 & pos1 & cap1 & -> & Hu & H).
    apply IH2 in H as (v & s2 & pos2 & cap2 & -> & Hv & H).
    exists (u ++ v), s2, pos2, cap2; repeat split;
      [now rewrite append_assoc | now exists u, v | exact H].
  - rewrite backtrack_quest in H.
    destruct (backtrack r1 s pos cap k) as [res'|] eqn:Hs.
    + injection H as ->.
      apply IH1 in Hs as (w & s1 & pos1 & cap1 & -> & Hw & Hk).
      exists w, s1, pos1, cap1; repeat split; [now left | exact Hk].
    + exists EmptyString, s, pos, cap; repeat split; [now right | exact H].
  - rewrite backtrack_star in H.
    apply (star_sound (lang r1) _ IH1) in H as (ws & s1 & pos1 & cap1 & Hws & -> & Hk).
    exists (fold_right String.append EmptyString ws), s1, pos1, cap1.
    repeat split; [now exists ws | exact Hk].
  - rewrite backtrack_capture in H.
    apply IH1 in H as (w & s1 & pos1 & cap1 & -> & Hw & Hk).
    exists w, s1, pos1, (<[i := Some (pos, pos1)]> cap1).
    repeat split; [exact Hw | exact Hk].
Qed.

(** Two continuations agree after [s] at offset [pos] when they agree on
    every rest of [s], at the offset of that rest. *)
Lemma backtrack_ext (r : Regexp) :
  forall s pos cap (k1 k2 : Cont),
    (forall w s' cap', s = w ++ s' ->
                       k1 s' (pos + String.length w) cap' = k2 s' (pos + String.length w) cap') ->
    backtrack r s pos cap k1 = backtrack r s pos cap k2.
Proof.
  induction r as [|x| |r1 IH1 r2 IH2|r1 IH1|r1 IH1|i name r1 IH1];
    intros s pos cap k1 k2 Hk.
  - simpl. specialize (Hk EmptyString s cap eq_refl).
    now rewrite Nat.add_0_r in Hk.
  - rewrite !backtrack_literal.
    destruct (HasPrefix s x) eqn:Hp; [|reflexivity].
    apply Hk. now apply HasPrefix_split.
  - destruct s as [|c s]; [reflexivity |].
    rewrite !backtrack_any_cons.
    destruct (Ascii.eqb c newline); [reflexivity |].
    specialize (Hk (String c EmptyString) s cap eq_refl).
    now rewrite Nat.add_1_r in Hk.
  - rewrite !backtrack_concat. apply IH1.
    intros w s' cap' ->. apply IH2.
    intros w2 s2 cap2 ->.
    specialize (Hk (w ++ w2) s2 cap2).
    rewrite length_append, Nat.add_assoc in Hk.
    apply Hk. now rewrite append_assoc.
  - rewrite !backtrack_quest.
    rewrite (IH1 s pos cap k1 k2 Hk).
    destruct (backtrack r1 s pos cap k2); [reflexivity |].
    specialize (Hk EmptyString s cap eq_refl).
    now rewrite Nat.add_0_r in Hk.
  - rewrite !backtrack_star.
    generalize (S (String.length s)) as fuel. intros fuel.
    revert s pos cap Hk.
    induction fuel as [|fuel IHf]; intros s pos cap Hk.
    + simpl. specialize (Hk EmptyString s cap eq_refl).
      now rewrite Nat.add_0_r in Hk.
    + rewrite !star_S.
      rewrite (IH1 s pos cap
                 (fun s' pos' cap' =>
                    if Nat.eqb pos' pos then None
                    else star (backtrack r1) fuel s' pos' cap' k1)
                 (fun s' pos' cap' =>
                    if Nat.eqb pos' pos then None
                    else star (backtrack r1) fuel s' pos' cap' k2)).
      * destruct (backtrack r1 s pos cap _); [reflexivity |].
        specialize (Hk EmptyString s cap eq_refl).
        rewrite Nat.add_0_r in Hk. exact Hk.
      * intros w s' cap' ->. cbv beta.
        destruct (Nat.eqb (pos + String.length w) pos); [reflexivity |].
        apply IHf. intros w2 s2 cap2 ->.
        specialize (Hk (w ++ w2) s2 cap2).
        rewrite length_append, Nat.add_assoc in Hk.
        apply Hk. now rewrite append_assoc.
  - rewrite !backtrack_capture. apply IH1.
    intros w s' cap' ->. now apply Hk.
Qed.

(** The fuel of the greedy loop is never used up: every round consumes a
    byte, so more fuel than the input has bytes changes nothing. *)
Lemma star_fuel_enough (r : Regexp) :
  forall fuel s pos cap (k : Cont),
    String.length s < fuel ->
    star (backtrack r) (S fuel) s pos cap k = star (backtrack r) fuel s pos cap k.
Proof.
  induction fuel as [|fuel IH]; intros s pos cap k Hlen; [lia |].
  rewrite (star_S _ (S fuel)), (star_S _ fuel).
  rewrite (backtrack_ext r s pos cap
             (fun s' pos' cap' =>
                if Nat.eqb pos' pos then None
                else star (backtrack r) (S fuel) s' pos' cap' k)
             (fun s' pos' cap' =>
                if Nat.eqb pos' pos then None
                else star (backtrack r) fuel s' pos' cap' k)); [reflexivity |].
  intros w s' cap' ->. cbv beta.
  destruct (Nat.eqb (pos + String.length w) pos) eqn:Hw; [reflexivity |].
  apply Nat.eqb_neq in Hw.
  apply IH. rewrite length_append in Hlen. lia.
Qed.

(** A match at the front of [s] is a word of the pattern at the front of [s]. *)
Lemma matchAt_sound (r : Regexp) (s : string) (pos : nat) res :
  matchAt r s pos = Some res -> exists w s', s = w ++ s' /\ lang r w.
Proof.
  intros H. apply backtrack_sound in H as (w & s' & _ & _ & -> & Hw & _).
  now exists w, s'.
Qed.

Lemma search_unfold (r : Regexp) (s : string) (pos : nat) :
  search r s pos =
  match matchAt r s pos with
  | Some res => Some res
  | None =>
      match s with
      | EmptyString => None
      | String _ s' => search r s' (S pos)
      end
  end.
Proof. now destruct s. Qed.

#[local] Arguments backtrack : simpl never.
#[local] Arguments star : simpl never.

Lemma caps5_eq (a b c d a' b' c' d' : nat) (g1 g2 g3 : option (nat * nat)) :
  a = a' -> b = b' -> c = c' -> d = d' ->
  Some [Some (a, b); g1; g2; g3; Some (c, d)] =
  Some [Some (a', b'); g1; g2; g3; Some (c', d')].
Proof. now intros -> -> -> ->. Qed.

Lemma strs5_eq (a e a' e' g1 g2 g3 : string) :
  a = a' -> e = e' ->
  Some [a; g1; g2; g3; e] = Some [a'; g1; g2; g3; e'].
Proof. now intros -> ->. Qed.

(** Run the matcher over the literal bytes of a command head, then let the
    namespace group take the line. *)
Ltac head_steps x z Hx Hz :=
  simpl String.append;
  repeat (rewrite ?backtrack_concat, ?backtrack_literal, ?backtrack_quest,
            ?backtrack_capture; simpl);
  do 3 eexists;
  rewrite backtrack_star;
  erewrite (star_any_line x z Hx Hz); cycle 1;
  [ rewrite length_append; lia | reflexivity | simpl; apply caps5_eq; lia ].

Lemma matchAt_deploy_head (h x z : string) (pos : nat) :
  In h deployHeads -> hasByte newline x = false -> lineEnd z ->
  exists g1 g2 g3,
    matchAt getDeployRegexp (h ++ (x ++ z)) pos =
    Some [ Some (pos, pos + (String.length h + String.length x)); g1; g2; g3;
           Some (pos + String.length h, pos + (String.length h + String.length x)) ].
Proof.
  intros Hh Hx Hz. unfold matchAt, getDeployRegexp, concat.
  simpl in Hh.
  destruct Hh as [<-|[<-|[<-|[<-|[<-|[<-|[<-|[<-|[]]]]]]]]]; head_steps x z Hx Hz.
Qed.

Lemma matchAt_pod_head (h x z : string) (pos : nat) :
  In h podHeads -> hasByte newline x = false -> lineEnd z ->
  exists g1 g2 g3,
    matchAt getPodRegexp (h ++ (x ++ z)) pos =
    Some [ Some (pos, pos + (String.length h + String.length x)); g1; g2; g3;
           Some (pos + String.length h, pos + (String.length h + String.length x)) ].
Proof.
  intros Hh Hx Hz. unfold matchAt, getPodRegexp, concat.
  simpl in Hh.
  destruct Hh as [<-|[<-|[<-|[<-|[<-|[<-|[<-|[<-|[]]]]]]]]]; head_steps x z Hx Hz.
Qed.

(** Every word of a command pattern begins with one of its heads. *)
Lemma lang_deploy_heads (w : string) :
  lang getDeployRegexp w -> existsb (HasPrefix w) deployHeads = true.
Proof.
  unfold getDeployRegexp, concat; simpl lang.
  intros (u1 & v1 & -> & -> & u2 & v2 & -> & H2 & u3 & v3 & -> & -> &
          u4 & v4 & -> & H4 & u5 & v5 & -> & H5 & u6 & v6 & -> & -> & _).
  destruct H2 as [-> | ->]; destruct H4 as [-> | ->]; destruct H5 as [-> | ->];
    reflexivity.
Qed.

Lemma lang_pod_heads (w : string) :
  lang getPodRegexp w -> existsb (HasPrefix w) podHeads = true.
Proof.
  unfold getPodRegexp, concat; simpl lang.
  intros (u1 & v1 & -> & -> & u2 & v2 & -> & H2 & u3 & v3 & -> & -> &
          u4 & v4 & -> & H4 & u5 & v5 & -> & H5 & u6 & v6 & -> & -> & _).
  destruct H2 as [-> | ->]; destruct H4 as [-> | ->]; destruct H5 as [-> | ->];
    reflexivity.
Qed.

End MatcherFacts.

(** * A command pattern: heads that begin with the byte k, then the namespace *)

Section CommandPattern.

Variable r : Regexp.
Variable heads : list string.

Hypothesis heads_shape : forallb headShape heads = true.
Hypothesis lang_heads :
  forall w, lang r w -> existsb (HasPrefix w) heads = true.
Hypothesis matchAt_head :
  forall h x z pos,
    In h heads -> hasByte newline x = false -> lineEnd z ->
    exists g1 g2 g3,
      matchAt r (h ++ (x ++ z)) pos =
      Some [ Some (pos, pos + (String.length h + String.length x)); g1; g2; g3;
             Some (pos + String.length h, pos + (String.length h + String.length x)) ].
Hypothesis r_groups : NumSubexp r = 4.
Hypothesis r_names :
  SubexpNames r = [EmptyString; EmptyString; EmptyString; EmptyString; "namespace"].

Lemma head_k (h : string) :
  In h heads -> exists h', h = String "k" h' /\ hasByte "k" h' = false.
Proof.
  intros Hin. pose proof (proj1 (forallb_forall _ _) heads_shape h Hin) as Hs.
  destruct h as [|c h']; [discriminate |]; simpl in Hs.
  apply andb_true_iff in Hs as [Hc Hk]. apply Ascii.eqb_eq in Hc; subst c.
  exists h'; split; [reflexivity | now apply negb_true_iff].
Qed.

Lemma matchAt_head_some (h y : string) (pos : nat) :
  In h heads -> matchAt r (h ++ y) pos <> None.
Proof.
  intros Hin. destruct (firstLine_split y) as (z & Hy & Hz).
  destruct (matchAt_head h (firstLine y) z pos Hin (firstLine_no_newline y) Hz)
    as (g1 & g2 & g3 & H).
  rewrite <- Hy in H. now rewrite H.
Qed.

(** A match begins with a head. *)
Lemma matchAt_begins (s : string) (pos : nat) :
  matchAt r s pos <> None -> exists h, In h heads /\ HasPrefix s h = true.
Proof.
  destruct (matchAt r s pos) as [res|] eqn:E; [intros _ | congruence].
  apply matchAt_sound in E as (w & s' & -> & Hw).
  apply lang_heads, existsb_exists in Hw as (h & Hin & Hp).
  exists h; split; [exact Hin | now apply HasPrefix_weaken].
Qed.

(** No match begins inside a text that a head follows, unless it lies in
    that text: the byte k of the head cannot be an inner byte of a match. *)
Lemma matchAt_extend (c : ascii) (p h y : string) (pos pos' : nat) :
  In h heads ->
  matchAt r (String c p) pos = None ->
  matchAt r (String c p ++ (h ++ y)) pos' = None.
Proof.
  intros Hin Hnone.
  destruct (matchAt r (String c p ++ (h ++ y)) pos') as [res|] eqn:E;
    [exfalso | reflexivity].
  assert (Hb : matchAt r (String c p ++ (h ++ y)) pos' <> None) by congruence.
  apply matchAt_begins in Hb as (h0 & Hin0 & Hp0).
  destruct (head_k h Hin) as (h' & -> & _).
  change (String "k" h' ++ y) with (String "k" (h' ++ y)) in Hp0.
  apply HasPrefix_cross in Hp0 as [Hp | [v Hv]].
  - apply HasPrefix_split in Hp.
    apply (matchAt_head_some h0 (drop (String.length h0) (String c p)) pos Hin0).
    now rewrite <- Hp.
  - destruct (head_k h0 Hin0) as (h0' & -> & Hk0).
    simpl in Hv. injection Hv as _ ->.
    rewrite hasByte_append in Hk0; simpl in Hk0.
    now rewrite orb_true_r in Hk0.
Qed.

(** The search passes over a text without a match and finds the head
    that follows it. *)
Lemma search_skip (pre h y : string) (pos : nat) :
  In h heads ->
  search r pre pos = None ->
  search r (pre ++ (h ++ y)) pos = matchAt r (h ++ y) (pos + String.length pre).
Proof.
  intros Hin. revert pos; induction pre as [|c pre IH]; intros pos Hnone.
  - change (EmptyString ++ (h ++ y)) with (h ++ y).
    rewrite search_unfold, Nat.add_0_r.
    destruct (matchAt r (h ++ y) pos) eqn:E; [reflexivity |].
    now apply matchAt_head_some in E.
  - rewrite search_unfold in Hnone.
    destruct (matchAt r (String c pre) pos) eqn:E; [discriminate |].
    rewrite search_unfold, (matchAt_extend c pre h y pos pos Hin E).
    change (String c pre ++ (h ++ y)) with (String c (pre ++ (h ++ y))).
    cbv iota.
    rewrite (IH (S pos) Hnone). f_equal. simpl; lia.
Qed.

(** A text without the byte k has no match. *)
Lemma search_no_k (s : string) (pos : nat) :
  hasByte "k" s = false -> search r s pos = None.
Proof.
  revert pos; induction s as [|c s IH]; intros pos Hk; rewrite search_unfold.
  - destruct (matchAt r EmptyString pos) eqn:E; [|reflexivity].
    assert (Hb : matchAt r EmptyString pos <> None) by congruence.
    apply matchAt_begins in Hb as (h & Hin & Hp).
    destruct (head_k h Hin) as (h' & -> & _); discriminate.
  - simpl in Hk. apply orb_false_iff in Hk as [Hc Hs].
    rewrite (IH (S pos) Hs).
    destruct (matchAt r (String c s) pos) eqn:E; [|reflexivity].
    assert (Hb : matchAt r (String c s) pos <> None) by congruence.
    apply matchAt_begins in Hb as (h & Hin & Hp).
    destruct (head_k h Hin) as (h' & -> & _). simpl in Hp.
    now rewrite Hc in Hp.
Qed.

Lemma MatchString_no_k (s : string) : hasByte "k" s = false -> MatchString r s = false.
Proof. intros H. unfold MatchString, doExecute. now rewrite search_no_k. Qed.

(** The submatches of a text that carries a command after a part without a
    match: the whole match, the three optional groups, the namespace. *)
Lemma FindStringSubmatch_command (pre h y : string) :
  In h heads ->
  MatchString r pre = false ->
  exists g1 g2 g3,
    FindStringSubmatch r (pre ++ (h ++ y)) =
    Some [h ++ firstLine y; g1; g2; g3; firstLine y].
Proof.
  intros Hin Hpre. unfold MatchString, doExecute in Hpre.
  destruct (search r pre 0) eqn:Hs; [discriminate |].
  destruct (firstLine_split y) as (z & Hy & Hz).
  pose proof (firstLine_no_newline y) as Hnl.
  remember (firstLine y) as x eqn:Hx. clear Hx. subst y.
  destruct (matchAt_head h x z (String.length pre) Hin Hnl Hz) as (g1 & g2 & g3 & H).
  unfold FindStringSubmatch, doExecute.
  rewrite (search_skip pre h (x ++ z) 0 Hin Hs), r_groups; simpl Nat.add.
  rewrite H. simpl map.
  do 3 eexists. apply strs5_eq.
  - rewrite <- (append_assoc h), <- length_append.
    apply slice_append.
  - rewrite <- (append_assoc pre h), <- length_append.
    replace (String.length pre + (String.length h + String.length x))
      with (String.length (pre ++ h) + String.length x)
      by (rewrite length_append; lia).
    apply slice_append.
Qed.

(** What [regexpSubexpMatch] returns for such a text. *)
Lemma regexpSubexpMatch_command (pre h y : string) :
  In h heads ->
  MatchString r pre = false ->
  exists args,
    regexpSubexpMatch r (pre ++ (h ++ y)) = Ok args
    /\ map_index args "namespace" = firstLine y.
Proof.
  intros Hin Hpre.
  destruct (FindStringSubmatch_command pre h y Hin Hpre) as (g1 & g2 & g3 & H).
  unfold regexpSubexpMatch. rewrite H, r_names. simpl.
  eexists; split; [reflexivity |].
  unfold map_index. now rewrite lookup_insert_eq.
Qed.

Lemma MatchString_command (pre h y : string) :
  In h heads -> MatchString r pre = false -> MatchString r (pre ++ (h ++ y)) = true.
Proof.
  intros Hin Hpre.
  destruct (FindStringSubmatch_command pre h y Hin Hpre) as (g1 & g2 & g3 & H).
  unfold FindStringSubmatch in H. unfold MatchString.
  now destruct (doExecute r (pre ++ (h ++ y))).
Qed.

End CommandPattern.

(** * The two patterns of the bot *)

Section BotPatterns.

Lemma deploy_args (pre h y : string) :
  In h deployHeads ->
  MatchString getDeployRegexp pre = false ->
  exists args,
    regexpSubexpMatch getDeployRegexp (pre ++ (h ++ y)) = Ok args
    /\ map_index args "namespace" = firstLine y.
Proof.
  apply (regexpSubexpMatch_command getDeployRegexp deployHeads);
    auto using lang_deploy_heads, matchAt_deploy_head.
Qed.

Lemma deploy_matches (pre h y : string) :
  In h deployHeads ->
  MatchString getDeployRegexp pre = false ->
  MatchString getDeployRegexp (pre ++ (h ++ y)) = true.
Proof.
  apply (MatchString_command getDeployRegexp deployHeads);
    auto using lang_deploy_heads, matchAt_deploy_head.
Qed.

Lemma deploy_no_k (s : string) :
  hasByte "k" s = false -> MatchString getDeployRegexp s = false.
Proof.
  apply (MatchString_no_k getDeployRegexp deployHeads);
    auto using lang_deploy_heads.
Qed.

Lemma pod_args (pre h y : string) :
  In h podHeads ->
  MatchString getPodRegexp pre = false ->
  exists args,
    regexpSubexpMatch getPodRegexp (pre ++ (h ++ y)) = Ok args
    /\ map_index args "namespace" = firstLine y.
Proof.
  apply (regexpSubexpMatch_command getPodRegexp podHeads);
    auto using lang_pod_heads, matchAt_pod_head.
Qed.

Lemma pod_matches (pre h y : string) :
  In h podHeads ->
  MatchString getPodRegexp pre = false ->
  MatchString getPodRegexp (pre ++ (h ++ y)) = true.
Proof.
  apply (MatchString_command getPodRegexp podHeads);
    auto using lang_pod_heads, matchAt_pod_head.
Qed.

Lemma pod_no_k (s : string) :
  hasByte "k" s = false -> MatchString getPodRegexp s = false.
Proof.
  apply (MatchString_no_k getPodRegexp podHeads);
    auto using lang_pod_heads.
Qed.

End BotPatterns.

(** * The submatch slice and the group names have the same length *)

Section SubmatchLength.

Lemma capNames_length (r : Regexp) (names : list string) :
  length (capNames r names) = length names.
Proof.
  revert names; induction r as [|x| |r1 IH1 r2 IH2|r1 IH1|r1 IH1|i name r1 IH1];
    intros names; simpl; try reflexivity; try apply IH1.
  - now rewrite IH2, IH1.
  - now rewrite IH1, length_insert.
Qed.

Lemma SubexpNames_length (r : Regexp) :
  length (SubexpNames r) = 1 + NumSubexp r.
Proof. unfold SubexpNames. now rewrite capNames_length, length_replicate. Qed.

Lemma FindStringSubmatch_length (r : Regexp) (s : string) (m : list string) :
  FindStringSubmatch r s = Some m -> length m = 1 + NumSubexp r.
Proof.
  unfold FindStringSubmatch. destruct (doExecute r s); [|discriminate].
  intros [= <-]. simpl. now rewrite List.length_map, List.length_seq.
Qed.

Lemma FindStringSubmatch_guard (r : Regexp) (s : string) :
  MatchString r s = true -> exists m, FindStringSubmatch r s = Some m.
Proof.
  unfold MatchString, FindStringSubmatch.
  destruct (doExecute r s); [eauto | discriminate].
Qed.

(** The loop over the names stays inside a slice that is long enough. *)
Lemma rangeSubexpNames_ok (l names : list string) :
  forall i subexpMatchMap,
    i + length names <= length l ->
    exists m, rangeSubexpNames (Some l) i names subexpMatchMap = Ok m.
Proof.
  induction names as [|name names IH]; intros i acc Hlen; simpl in *.
  - now exists acc.
  - destruct (Nat.eqb i 0); simpl.
    + apply IH; lia.
    + destruct (lookup_lt_is_Some_2 l i) as [v Hv]; [lia |].
      rewrite Hv. apply IH; lia.
Qed.

(** On nil the first index past 0 is already out of range. *)
Lemma rangeSubexpNames_nil (names : list string) (name : string) :
  rangeSubexpNames None 0 (EmptyString :: name :: names) ∅
  = Panic (IndexOutOfRange 1 0).
Proof. reflexivity. Qed.

Lemma regexpSubexpMatch_ok (r : Regexp) (s : string) :
  MatchString r s = true -> exists args, regexpSubexpMatch r s = Ok args.
Proof.
  intros H. destruct (FindStringSubmatch_guard r s H) as [m Hm].
  unfold regexpSubexpMatch. rewrite Hm.
  apply rangeSubexpNames_ok.
  rewrite (FindStringSubmatch_length r s m Hm), SubexpNames_length. lia.
Qed.

End SubmatchLength.

(** * The handler is the command matcher followed by the command *)

Section HandlerFacts.

Variable clientset : Clientset.
Variable botID : string.

(** The handler is the command matcher followed by the command. *)
Lemma handleMessage_classify (Text Channel : string) (t : Trace) :
  Contains Text (botTagString botID) = true ->
  handleMessage clientset botID Text Channel t
  = perform clientset (classify Text) Channel t.
Proof.
  intros Htag. unfold handleMessage, classify, namespaceOf. rewrite Htag.
  change (negb true) with false. cbv iota.
  destruct (MatchString getDeployRegexp Text) eqn:Hd.
  - destruct (regexpSubexpMatch_ok _ _ Hd) as [args ->].
    unfold perform, deploymentsClient_List, mbind, io_bind, mret, io_ret, lift, emit, panic.
    destruct (Deployments_List clientset (map_index args "namespace"));
      [reflexivity |].
    now rewrite <- !app_assoc.
  - destruct (MatchString getPodRegexp Text) eqn:Hp.
    + destruct (regexpSubexpMatch_ok _ _ Hp) as [args ->].
      unfold perform, podsClient_List, mbind, io_bind, mret, io_ret, lift, emit, panic.
      destruct (Pods_List clientset (map_index args "namespace"));
        [reflexivity |].
      now rewrite <- !app_assoc.
    + destruct (Contains Text "help"); reflexivity.
Qed.

Lemma handleMessage_ignored (Text Channel : string) (t : Trace) :
  Contains Text (botTagString botID) = false ->
  handleMessage clientset botID Text Channel t = (Ok Next, t).
Proof. intros Htag. unfold handleMessage. now rewrite Htag. Qed.

End HandlerFacts.

Lemma Contains_unfold (s substr : string) :
  Contains s substr =
  HasPrefix s substr ||
  match s with
  | EmptyString => false
  | String _ s' => Contains s' substr
  end.
Proof. now destruct s. Qed.

Lemma Contains_front (w s : string) : Contains (w ++ s) w = true.
Proof. now rewrite Contains_unfold, HasPrefix_append. Qed.

(** * The two list commands *)

Lemma classify_list_command (kind : ListKind) (pre h y : string) :
  In h (headsOf kind) ->
  MatchString (patternOf kind) pre = false ->
  (kind = Pods -> MatchString getDeployRegexp (pre ++ (h ++ y)) = false) ->
  classify (pre ++ (h ++ y)) = commandOf kind (firstLine y).
Proof.
  intros Hin Hpre Hpod. unfold classify, namespaceOf.
  destruct kind; simpl in *.
  - rewrite (deploy_matches pre h y Hin Hpre).
    destruct (deploy_args pre h y Hin Hpre) as (args & -> & ->). reflexivity.
  - rewrite (Hpod eq_refl), (pod_matches pre h y Hin Hpre).
    destruct (pod_args pre h y Hin Hpre) as (args & -> & ->). reflexivity.
Qed.

Lemma queries_perform_list (clientset : Clientset) (kind : ListKind) (ns Channel : string) :
  queries (perform clientset (commandOf kind ns) Channel []).2 = [queryOf kind ns].
Proof.
  destruct kind; simpl.
  - now destruct (Deployments_List clientset ns).
  - now destruct (Pods_List clientset ns).
Qed.

(** C1, as amended: a text that carries the bot's mention and has the form
    P ++ H ++ X, where H is one of the heads "k get deploy -n ",
    "kubectl get deploy -n " and their deployment(s) variants and no match of
    the pattern lies in P, is a list-workloads command, and the extracted
    namespace is X up to its first line feed, so all of X, with its trailing
    punctuation and words, when X is one line. The same holds for the heads
    "k get po -n ", "kubectl get po -n " and their pod(s) variants and the
    pod-list path, for a text that the workload pattern does not match. The
    dispatcher then issues the one list query for that namespace. *)
Theorem command_namespace_extracted
        (kind : ListKind) (clientset : Clientset) (botID pre h y Channel : string) :
  In h (headsOf kind) ->
  MatchString (patternOf kind) pre = false ->
  (kind = Pods -> MatchString getDeployRegexp (pre ++ (h ++ y)) = false) ->
  Contains (pre ++ (h ++ y)) (botTagString botID) = true ->
  MatchString (patternOf kind) (pre ++ (h ++ y)) = true
  /\ (exists args,
         regexpSubexpMatch (patternOf kind) (pre ++ (h ++ y)) = Ok args
         /\ map_index args "namespace" = firstLine y)
  /\ classify (pre ++ (h ++ y)) = commandOf kind (firstLine y)
  /\ queries (handleMessage clientset botID (pre ++ (h ++ y)) Channel []).2
     = [queryOf kind (firstLine y)]
  /\ (hasByte newline y = false -> firstLine y = y).
Proof.
  intros Hin Hpre Hpod Htag. repeat split.
  - destruct kind; [now apply deploy_matches | now apply pod_matches].
  - destruct kind; [now apply deploy_args | now apply pod_args].
  - now apply classify_list_command.
  - rewrite (handleMessage_classify _ _ _ _ _ Htag).
    rewrite (classify_list_command kind pre h y Hin Hpre Hpod).
    apply queries_perform_list.
  - apply firstLine_id.
Qed.

Lemma command_namespace_extracted_witness :
  classify "<@U1> kubectl get pods -n prod, please" = ListPodsOf "prod, please"
  /\ classify "<@U1> k get deployments -n prod?" = ListWorkloads "prod?".
Proof.
  split.
  - apply (command_namespace_extracted Pods clusterDown "U1" "<@U1> "
             "kubectl get pods -n " "prod, please" "C9");
      [simpl; tauto | reflexivity | reflexivity | reflexivity].
  - apply (command_namespace_extracted Workloads clusterDown "U1" "<@U1> "
             "k get deployments -n " "prod?" "C9");
      [simpl; tauto | reflexivity | discriminate | reflexivity].
Defined.

(** C1 fails as stated: without the byte k before " get" the text is not a
    list command, and a line feed ends the namespace. *)
Lemma command_without_k_not_matched :
  Contains "<@U1> get deploy -n prod" (botTagString "U1") = true
  /\ MatchString getDeployRegexp "<@U1> get deploy -n prod" = false
  /\ classify "<@U1> get deploy -n prod" = Unknown
  /\ handleMessage clusterDown "U1" "<@U1> get deploy -n prod" "C9" []
     = (Ok Next, [SendMessage aliveText "C9"])
  /\ classify "<@U1> get pods -n prod" = Unknown
  /\ classify ("<@U1> k get deploy -n prod" ++ nl ++ "now") = ListWorkloads "prod".
Proof. repeat split; vm_compute; reflexivity. Qed.

(** * The reply to a workload listing *)

Lemma botTag_no_match (botID : string) :
  hasByte "k" botID = false ->
  MatchString getDeployRegexp (botTagString botID ++ " ") = false.
Proof.
  intros Hk. apply deploy_no_k. unfold botTagString.
  rewrite !hasByte_append, Hk. reflexivity.
Qed.

(** C2, as amended: when the client returns the workloads api and worker for
    the namespace prod, the message is the bot's mention, a space, one of the
    heads of the workload pattern ("k get deploy -n ", "kubectl get deploy -n ",
    ...) and "prod", and the bot's identifier has no byte k, the handler
    queries the namespace prod and sends the single reply: the fenced block
    with one workload name per line, in list order. *)
Theorem deploy_prod_reply (clientset : Clientset) (botID h Channel : string) (t : Trace) :
  In h deployHeads ->
  hasByte "k" botID = false ->
  Deployments_List clientset "prod" = inr apiWorker ->
  handleMessage clientset botID (botTagString botID ++ " " ++ h ++ "prod") Channel t
  = (Ok Next, (t ++ [ ListDeployments "prod"; Printf apiWorkerReply [];
                      SendMessage apiWorkerReply Channel ])%list).
Proof.
  intros Hin Hk Hlist.
  rewrite handleMessage_classify by apply Contains_front.
  rewrite <- (append_assoc (botTagString botID) " ").
  rewrite (classify_list_command Workloads _ h "prod" Hin (botTag_no_match botID Hk))
    by discriminate.
  simpl. now rewrite Hlist.
Qed.

Lemma deploy_prod_reply_witness :
  handleMessage prodCluster "U1" "<@U1> kubectl get deploy -n prod" "C9" []
  = (Ok Next, [ ListDeployments "prod"; Printf apiWorkerReply [];
                SendMessage apiWorkerReply "C9" ]).
Proof.
  apply (deploy_prod_reply prodCluster "U1" "kubectl get deploy -n " "C9" []);
    [simpl; tauto | reflexivity | reflexivity].
Defined.

(** C2 fails as stated: the message "<@bot> get deploy -n prod" has no k
    before " get"; it is answered with the fallback reply, without a query. *)
Lemma get_deploy_prod_reply_alive :
  Deployments_List prodCluster "prod" = inr apiWorker
  /\ handleMessage prodCluster "U1" "<@U1> get deploy -n prod" "C9" []
     = (Ok Next, [SendMessage aliveText "C9"])
  /\ aliveText <> apiWorkerReply.
Proof.
  split; [reflexivity | split; [vm_compute; reflexivity |]].
  vm_compute; discriminate.
Qed.

(** * The pod lines *)

Section PodLines.

Lemma int_incr_small (n : Z) : (0 <= n < max_int)%Z -> int_incr n = (n + 1)%Z.
Proof.
  unfold int_incr, int_wrap, max_int. intros H.
  rewrite Z.mod_small; lia.
Qed.

(** The counting loop, from a count [n] that leaves room for the rest. *)
Lemma running_loop (l : list ContainerStatus) :
  forall n : Z,
    (0 <= n)%Z -> (n + len l <= max_int)%Z ->
    fold_left (fun n container =>
                 match Running (State container) with
                 | Some _ => int_incr n
                 | None => n
                 end) l n
    = (n + Z.of_nat (length (List.filter isRunning l)))%Z.
Proof.
  unfold len. induction l as [|c l IH]; intros n Hn Hlen; simpl in *; [lia |].
  unfold isRunning at 1. destruct (Running (State c)); simpl.
  - rewrite int_incr_small by lia. rewrite IH by lia. lia.
  - rewrite IH by lia. lia.
Qed.

Lemma runningContainers_count (po : Pod) :
  (len (ContainerStatuses (Status po)) <= max_int)%Z ->
  runningContainers po = Z.of_nat (runningCount po).
Proof.
  intros H. unfold runningContainers, runningCount.
  rewrite running_loop; lia.
Qed.

Lemma filter_length_le {A} (f : A -> bool) (l : list A) :
  length (List.filter f l) <= length l.
Proof.
  induction l as [|a l IH]; simpl; [lia |].
  destruct (f a); simpl; lia.
Qed.

Lemma podLine_statusLine (po : Pod) :
  (len (ContainerStatuses (Status po)) <= max_int)%Z ->
  podLine po = statusLine po ++ nl.
Proof.
  intros H. unfold podLine, statusLine, len.
  rewrite (runningContainers_count po H).
  now rewrite !append_assoc.
Qed.

(** A builder that receives one string per item holds them in order. *)
Lemma builder_loop {A} (f : A -> string) (l : list A) :
  forall b : string,
    fold_left (fun b x => b ++ f x) l b
    = b ++ fold_right (fun x rest => f x ++ rest) EmptyString l.
Proof.
  induction l as [|x l IH]; intros b; simpl.
  - now rewrite append_empty_r.
  - now rewrite IH, append_assoc.
Qed.

End PodLines.

(** C3, as amended: for the pods the pod-list query returned, the reply is
    the fenced block of their lines in list order, each line being exactly
    the name, a tab, the phase string, a tab, then running/total and a line
    feed, where running is the number of container statuses whose state is
    running and total is the number of container statuses of the pod. *)
Theorem pod_reply_lines (items : list Pod) :
  Forall (fun po => (len (ContainerStatuses (Status po)) <= max_int)%Z) items ->
  formatPods items
  = "```" ++ nl
      ++ fold_right (fun po rest => (statusLine po ++ nl) ++ rest) EmptyString items
      ++ "```".
Proof.
  intros Hlen. unfold formatPods, fence.
  rewrite builder_loop, !append_assoc.
  apply (f_equal (fun lines => "```" ++ nl ++ lines ++ "```")).
  induction Hlen as [|po items Hpo _ IH]; simpl; [reflexivity |].
  now rewrite IH, (podLine_statusLine po Hpo).
Qed.

Lemma pod_reply_lines_witness :
  formatPods [api1]
  = "```" ++ nl ++ ("api-1" ++ tab ++ "Running" ++ tab ++ "2/3" ++ nl) ++ "```".
Proof.
  rewrite (pod_reply_lines [api1]); [reflexivity |].
  repeat constructor. vm_compute. discriminate.
Defined.

(** C3 fails as stated: the total of a line is not the declared container
    count; a pod with 3 declared containers and no status yet has total 0. *)
Lemma pod_line_total_not_declared :
  length (Containers (Spec web0)) = 3
  /\ podLine web0 = "web-0" ++ tab ++ "Pending" ++ tab ++ "0/0" ++ nl
  /\ declaredLine web0 = "web-0" ++ tab ++ "Pending" ++ tab ++ "0/3"
  /\ podLine web0 <> declaredLine web0 ++ nl.
Proof.
  split; [reflexivity | split; [reflexivity | split; [reflexivity |]]].
  vm_compute; discriminate.
Qed.

(** C10: the counts of a pod line satisfy 0 <= running <= total: running is
    the number of container statuses whose state is running, and total is the
    length of that same list of container statuses, not of the declared
    containers. *)
Theorem running_le_total (po : Pod) :
  (len (ContainerStatuses (Status po)) <= max_int)%Z ->
  (0 <= runningContainers po <= len (ContainerStatuses (Status po)))%Z
  /\ runningContainers po
     = Z.of_nat (length (List.filter isRunning (ContainerStatuses (Status po))))
  /\ podLine po
     = Pod_Name po ++ tab ++ Phase (Status po) ++ tab
         ++ Itoa (runningContainers po) ++ "/"
         ++ Itoa (len (ContainerStatuses (Status po))) ++ nl.
Proof.
  intros H. rewrite (runningContainers_count po H). unfold runningCount, len.
  pose proof (filter_length_le isRunning (ContainerStatuses (Status po))).
  repeat split; try lia.
  unfold podLine. now rewrite (runningContainers_count po H).
Qed.

Lemma running_le_total_witness :
  (0 <= runningContainers api1 <= len (ContainerStatuses (Status api1)))%Z
  /\ runningContainers api1 = 2%Z
  /\ len (ContainerStatuses (Status api1)) = 3%Z
  /\ len (ContainerStatuses (Status web0)) <> Z.of_nat (length (Containers (Spec web0))).
Proof.
  destruct (running_le_total api1) as (Hle & Hcount & _).
  - vm_compute; discriminate.
  - split; [exact Hle | split; [rewrite Hcount; reflexivity | split; [reflexivity |]]].
    vm_compute; discriminate.
Defined.

(** * The dispatcher *)

(** C4: a message whose text does not contain the bot's mention token is
    ignored entirely: the dispatcher sends no reply, performs no query,
    prints nothing, and the loop goes on. *)
Theorem unaddressed_message_ignored
        (clientset : Clientset) (botID Text Channel : string) (t : Trace) :
  Contains Text (botTagString botID) = false ->
  dispatch clientset botID (MessageEvent Text Channel) t = (Ok Next, t)
  /\ step clientset botID (LoopRunning, t) (MessageEvent Text Channel) = (LoopRunning, t).
Proof.
  intros Htag. unfold step, dispatch.
  now rewrite (handleMessage_ignored clientset botID Text Channel t Htag).
Qed.

Lemma unaddressed_message_ignored_witness :
  mainLoop prodCluster "U1" [MessageEvent "<@U2> kubectl get deploy -n prod" "C9"]
  = (LoopRunning, []).
Proof.
  apply (unaddressed_message_ignored prodCluster "U1"
           "<@U2> kubectl get deploy -n prod" "C9" []).
  reflexivity.
Defined.

(** C5, as amended: a message addressed to the bot whose handling does not
    panic gets exactly one reply, on the channel it arrived on, and the
    branch is the first that applies in the order: workload-list pattern,
    pod-list pattern, the substring help, fallback; a text that an earlier
    pattern matches is never handled by a later branch. *)
Theorem one_reply_by_priority
        (clientset : Clientset) (botID Text Channel : string) (t : Trace) (c : Control) :
  Contains Text (botTagString botID) = true ->
  (handleMessage clientset botID Text Channel t).1 = Ok c ->
  exists reply log,
    handleMessage clientset botID Text Channel t = (Ok Next, (t ++ log)%list)
    /\ replies log = [(reply, Channel)]
    /\ if MatchString getDeployRegexp Text then
         exists items,
           Deployments_List clientset (namespaceOf getDeployRegexp Text) = inr items
           /\ queries log = [ListDeployments (namespaceOf getDeployRegexp Text)]
           /\ reply = formatDeployments items
       else if MatchString getPodRegexp Text then
         exists items,
           Pods_List clientset (namespaceOf getPodRegexp Text) = inr items
           /\ queries log = [ListPods (namespaceOf getPodRegexp Text)]
           /\ reply = formatPods items
       else if Contains Text "help" then queries log = [] /\ reply = helpText
       else queries log = [] /\ reply = aliveText.
Proof.
  intros Htag. rewrite (handleMessage_classify _ _ _ _ _ Htag).
  unfold classify, perform.
  destruct (MatchString getDeployRegexp Text).
  - destruct (Deployments_List clientset _) as [err|items] eqn:Hl; [discriminate |].
    intros _. do 2 eexists; repeat split. now exists items.
  - destruct (MatchString getPodRegexp Text).
    + destruct (Pods_List clientset _) as [err|items] eqn:Hl; [discriminate |].
      intros _. do 2 eexists; repeat split. now exists items.
    + destruct (Contains Text "help"); intros _; do 2 eexists; repeat split.
Qed.

Lemma one_reply_by_priority_witness :
  exists reply log,
    handleMessage prodCluster "U1" "<@U1> help: kubectl get deploy -n prod" "C9" []
    = (Ok Next, log)
    /\ replies log = [(reply, "C9")]
    /\ reply = apiWorkerReply.
Proof.
  destruct (one_reply_by_priority prodCluster "U1"
              "<@U1> help: kubectl get deploy -n prod" "C9" [] Next)
    as (reply & log & Hrun & Hreply & Hbranch);
    [reflexivity | reflexivity |].
  exists reply, log. split; [exact Hrun | split; [exact Hreply |]].
  destruct Hbranch as (items & Hitems & _ & ->).
  vm_compute in Hitems. injection Hitems as <-. reflexivity.
Defined.

(** C5 fails as stated: an addressed list command whose list call fails gets
    no reply. *)
Lemma addressed_message_without_reply :
  Contains "<@U1> k get deploy -n prod" (botTagString "U1") = true
  /\ handleMessage clusterDown "U1" "<@U1> k get deploy -n prod" "C9" []
     = (Panic (PanicError "connection refused"), [ListDeployments "prod"])
  /\ replies (handleMessage clusterDown "U1" "<@U1> k get deploy -n prod" "C9" []).2 = [].
Proof. split; [reflexivity | split; vm_compute; reflexivity]. Qed.

(** C6: when the list call of a list-workloads or list-pods command returns
    an error, the handler panics with that error right after the query: the
    loop is aborted, no reply is sent for the message and nothing is printed,
    and no later event is handled. *)
Theorem list_error_aborts_without_reply
        (clientset : Clientset) (botID Text Channel : string) (t : Trace)
        (q : Effect) (err : error) :
  Contains Text (botTagString botID) = true ->
  listError clientset Text = Some (q, err) ->
  handleMessage clientset botID Text Channel t = (Panic (PanicError err), (t ++ [q])%list)
  /\ replies [q] = []
  /\ (exists ns, q = ListDeployments ns \/ q = ListPods ns)
  /\ forall events,
       fold_left (step clientset botID) (MessageEvent Text Channel :: events) (LoopRunning, t)
       = (LoopAborted (PanicError err), (t ++ [q])%list).
Proof.
  intros Htag Herr.
  assert (Hrun : handleMessage clientset botID Text Channel t
                 = (Panic (PanicError err), (t ++ [q])%list)
                 /\ replies [q] = []
                 /\ exists ns, q = ListDeployments ns \/ q = ListPods ns).
  { rewrite (handleMessage_classify _ _ _ _ _ Htag).
    unfold listError in Herr. unfold perform.
    destruct (classify Text) as [ns|ns| |]; try discriminate.
    - destruct (Deployments_List clientset ns); [|discriminate].
      injection Herr as <- <-. repeat split. exists ns; now left.
    - destruct (Pods_List clientset ns); [|discriminate].
      injection Herr as <- <-. repeat split. exists ns; now right. }
  destruct Hrun as (Hrun & Hrep & Hq). repeat split; try assumption.
  intros events. simpl fold_left. unfold dispatch. rewrite Hrun.
  induction events as [|ev events IH]; [reflexivity | exact IH].
Qed.

Lemma list_error_aborts_without_reply_witness :
  mainLoop clusterDown "U1"
    [ MessageEvent "<@U1> kubectl get po -n prod" "C9";
      MessageEvent "<@U1> help" "C9" ]
  = (LoopAborted (PanicError "connection refused"), [ListPods "prod"]).
Proof.
  apply (list_error_aborts_without_reply clusterDown "U1"
           "<@U1> kubectl get po -n prod" "C9" [] (ListPods "prod")
           "connection refused");
    reflexivity.
Defined.

(** Handling a message leaves the loop running, or aborts it when the list
    call the text asks for fails. *)
Lemma step_message (clientset : Clientset) (botID Text Channel : string) (t : Trace) :
  (exists t', step clientset botID (LoopRunning, t) (MessageEvent Text Channel)
              = (LoopRunning, t')
              /\ (Contains Text (botTagString botID) = false
                  \/ listError clientset Text = None))
  \/ (exists q err,
         step clientset botID (LoopRunning, t) (MessageEvent Text Channel)
         = (LoopAborted (PanicError err), (t ++ [q])%list)
         /\ Contains Text (botTagString botID) = true
         /\ listError clientset Text = Some (q, err)).
Proof.
  unfold step, dispatch.
  destruct (Contains Text (botTagString botID)) eqn:Htag.
  - rewrite (handleMessage_classify _ _ _ _ _ Htag). unfold perform, listError.
    destruct (classify Text) as [ns|ns| |].
    + destruct (Deployments_List clientset ns) as [err|items].
      * right. now exists (ListDeployments ns), err.
      * left. eexists; split; [reflexivity | now right].
    + destruct (Pods_List clientset ns) as [err|items].
      * right. now exists (ListPods ns), err.
      * left. eexists; split; [reflexivity | now right].
    + left. eexists; split; [reflexivity | now right].
    + left. eexists; split; [reflexivity | now right].
  - rewrite (handleMessage_ignored _ _ _ _ _ Htag).
    left. exists t; split; [reflexivity | now left].
Qed.

(** C7, as amended: the loop returns only on the invalid-auth event, and
    apart from that it stops only by the panic of a message whose list call
    fails. Every event other than a message and invalid-auth (hello,
    connected, presence change, latency report, desktop notification,
    transport error, any other kind) prints at most one line, sends no reply,
    performs no query, and the loop stays running; handling an event ends in
    the terminated state exactly for invalid-auth, and in the aborted state
    exactly for an addressed message whose list call fails; the terminated
    and the aborted state are final. *)
Theorem loop_leaves_running
        (clientset : Clientset) (botID : string) (ev : Event) (t : Trace) :
  ((step clientset botID (LoopRunning, t) ev).1 = LoopTerminated <-> ev = InvalidAuthEvent)
  /\ (forall v,
        (step clientset botID (LoopRunning, t) ev).1 = LoopAborted v <->
        exists Text Channel q err,
          ev = MessageEvent Text Channel
          /\ Contains Text (botTagString botID) = true
          /\ listError clientset Text = Some (q, err)
          /\ v = PanicError err)
  /\ (isMessage ev = false -> ev <> InvalidAuthEvent ->
      exists log,
        step clientset botID (LoopRunning, t) ev = (LoopRunning, (t ++ log)%list)
        /\ length log <= 1 /\ forallb isPrintf log = true
        /\ replies log = [] /\ queries log = [])
  /\ (forall st events,
        st <> LoopRunning ->
        fold_left (step clientset botID) events (st, t) = (st, t)).
Proof.
  split; [|split; [|split]].
  - split.
    + destruct ev; try discriminate; try reflexivity.
      destruct (step_message clientset botID Text Channel t)
        as [(t' & -> & _) | (q & err & -> & _)]; discriminate.
    + intros ->. reflexivity.
  - intros v; split.
    + destruct ev; try discriminate.
      destruct (step_message clientset botID Text Channel t)
        as [(t' & -> & _) | (q & err & -> & Htag & Herr)]; [discriminate |].
      intros [= <-]. now exists Text, Channel, q, err.
    + intros (Text & Channel & q & err & -> & Htag & Herr & ->).
      destruct (step_message clientset botID Text Channel t)
        as [(t' & _ & [Hno | Hno]) | (q' & err' & -> & _ & Herr')].
      * congruence.
      * congruence.
      * rewrite Herr in Herr'. now injection Herr' as _ <-.
  - intros Hmsg Hauth.
    destruct ev; try discriminate; try congruence;
      [ exists [] | exists [] | eexists [_] | eexists [_] | eexists [_] | eexists [_]
      | exists [] ];
      (split; [rewrite ?app_nil_r; reflexivity | repeat split; simpl; lia]).
  - intros st events Hst.
    induction events as [|e events IH]; [reflexivity |].
    destruct st; [congruence | exact IH | exact IH].
Qed.

Lemma loop_leaves_running_witness :
  mainLoop prodCluster "U1" [ RTMError 1 "socket closed" ]
  = (LoopRunning,
     [ Printf ("Error: %s" ++ nl) [ArgString "Code 1 - socket closed"] ])
  /\ fold_left (step prodCluster "U1") [ MessageEvent "<@U1> help" "C9" ]
       (LoopTerminated, [ Printf "Invalid credentials" [] ])
     = (LoopTerminated, [ Printf "Invalid credentials" [] ]).
Proof.
  split.
  - destruct (loop_leaves_running prodCluster "U1"
                (RTMError 1 "socket closed") []) as (_ & _ & Hother & _).
    assert (Hne : RTMError 1 "socket closed" <> InvalidAuthEvent) by discriminate.
    destruct (Hother eq_refl Hne) as (log & Hstep & _).
    etransitivity; [exact Hstep |].
    vm_compute in Hstep. now injection Hstep as <-.
  - destruct (loop_leaves_running prodCluster "U1"
                InvalidAuthEvent [ Printf "Invalid credentials" [] ]) as (_ & _ & _ & Hfinal).
    apply (Hfinal LoopTerminated [ MessageEvent "<@U1> help" "C9" ]).
    discriminate.
Defined.

(** C7 fails as stated: a message event, which is not invalid-auth, stops the
    loop when its list call fails; the message after it is not handled. *)
Lemma loop_stops_on_message :
  MessageEvent "<@U1> k get po -n prod" "C9" <> InvalidAuthEvent
  /\ mainLoop clusterDown "U1"
       [ MessageEvent "<@U1> k get po -n prod" "C9";
         MessageEvent "<@U1> help" "C9" ]
     = (LoopAborted (PanicError "connection refused"), [ListPods "prod"])
  /\ mainLoop clusterDown "U1" [ MessageEvent "<@U1> help" "C9" ]
     = (LoopRunning, [SendMessage helpText "C9"]).
Proof.
  split; [discriminate | split; vm_compute; reflexivity].
Qed.

(** C8: the outcome of handling a message, and with it the reply, is a
    function of the text, the channel and the result of the list call the
    text asks for: two evaluations on the same text, whatever was done
    before and with clients that agree on that one list call, add the same
    effects, so the replies are byte-identical. *)
Theorem same_text_same_listing_same_reply
        (clientset1 clientset2 : Clientset) (botID Text Channel : string) (t1 t2 : Trace) :
  (forall ns, classify Text = ListWorkloads ns ->
              Deployments_List clientset1 ns = Deployments_List clientset2 ns) ->
  (forall ns, classify Text = ListPodsOf ns ->
              Pods_List clientset1 ns = Pods_List clientset2 ns) ->
  exists res log,
    handleMessage clientset1 botID Text Channel t1 = (res, (t1 ++ log)%list)
    /\ handleMessage clientset2 botID Text Channel t2 = (res, (t2 ++ log)%list).
Proof.
  intros Hd Hp.
  destruct (Contains Text (botTagString botID)) eqn:Htag.
  - rewrite !(handleMessage_classify _ _ _ _ _ Htag). unfold perform.
    destruct (classify Text) as [ns|ns| |].
    + rewrite <- (Hd ns eq_refl).
      destruct (Deployments_List clientset1 ns); do 2 eexists; split; reflexivity.
    + rewrite <- (Hp ns eq_refl).
      destruct (Pods_List clientset1 ns); do 2 eexists; split; reflexivity.
    + do 2 eexists; split; reflexivity.
    + do 2 eexists; split; reflexivity.
  - rewrite !(handleMessage_ignored _ _ _ _ _ Htag).
    exists (Ok Next), []. now rewrite !app_nil_r.
Qed.

Lemma same_text_same_listing_same_reply_witness :
  handleMessage prodCluster "U1" "<@U1> k get deploy -n prod" "C9" []
  = (Ok Next, prodLog)
  /\ handleMessage prodCluster "U1" "<@U1> k get deploy -n prod" "C9" prodLog
     = (Ok Next, (prodLog ++ prodLog)%list).
Proof.
  destruct (same_text_same_listing_same_reply prodCluster prodCluster "U1"
              "<@U1> k get deploy -n prod" "C9" [] prodLog)
    as (res & log & H1 & H2); [reflexivity | reflexivity |].
  assert (Hfirst : handleMessage prodCluster "U1" "<@U1> k get deploy -n prod" "C9" []
                   = (Ok Next, prodLog)) by (vm_compute; reflexivity).
  rewrite Hfirst in H1. injection H1 as <- <-.
  split; [exact Hfirst | exact H2].
Defined.

(** C9: on every string that a compiled pattern reports as matching,
    [regexpSubexpMatch] is safe: [FindStringSubmatch] returns a non-nil slice
    as long as the list of group names, so every index of the loop is in
    range and the map is returned; the dispatcher calls [regexpSubexpMatch]
    only under that guard, so handling a message never panics with an index
    out of range. *)
Theorem regexpSubexpMatch_in_range (r : Regexp) (str : string) :
  (MatchString r str = true ->
   exists match_ args,
     FindStringSubmatch r str = Some match_
     /\ length match_ = length (SubexpNames r)
     /\ (forall i, i < length (SubexpNames r) -> exists v, index_slice (Some match_) i = Ok v)
     /\ regexpSubexpMatch r str = Ok args)
  /\ (forall clientset botID Channel t i n,
        (handleMessage clientset botID str Channel t).1 <> Panic (IndexOutOfRange i n)).
Proof.
  split.
  - intros H.
    destruct (FindStringSubmatch_guard r str H) as [m Hm].
    destruct (regexpSubexpMatch_ok r str H) as [args Hargs].
    assert (Hlen : length m = length (SubexpNames r))
      by now rewrite (FindStringSubmatch_length r str m Hm), SubexpNames_length.
    exists m, args; repeat split; try assumption.
    intros i Hi. unfold index_slice.
    destruct (lookup_lt_is_Some_2 m i) as [v ->]; [lia | now exists v].
  - intros clientset botID Channel t i n.
    destruct (Contains str (botTagString botID)) eqn:Htag.
    + rewrite (handleMessage_classify _ _ _ _ _ Htag). unfold perform.
      destruct (classify str) as [ns|ns| |]; try discriminate.
      * destruct (Deployments_List clientset ns); discriminate.
      * destruct (Pods_List clientset ns); discriminate.
    + rewrite (handleMessage_ignored _ _ _ _ _ Htag). discriminate.
Qed.

Lemma regexpSubexpMatch_in_range_witness :
  MatchString getPodRegexp "<@U1> kubectl get pods -n kube-system" = true
  /\ exists match_ args,
       FindStringSubmatch getPodRegexp "<@U1> kubectl get pods -n kube-system"
       = Some match_
       /\ length match_ = 5
       /\ regexpSubexpMatch getPodRegexp "<@U1> kubectl get pods -n kube-system"
          = Ok args.
Proof.
  split; [reflexivity |].
  destruct (regexpSubexpMatch_in_range getPodRegexp
              "<@U1> kubectl get pods -n kube-system") as (Hsafe & _).
  destruct (Hsafe eq_refl) as (m & args & Hm & Hlen & _ & Hargs).
  exists m, args. split; [exact Hm | split; [exact Hlen | exact Hargs]].
Defined.

(** * Further properties of regexpSubexpMatch *)

Section SubexpMap.

Lemma index_slice_Some (l : list string) (i : nat) (v : string) :
  index_slice (Some l) i = Ok v <-> l !! i = Some v.
Proof.
  unfold index_slice. destruct (l !! i); split; intros H; congruence.
Qed.

Lemma rangeSubexpNames_cons match_ i name names m :
  rangeSubexpNames match_ i (name :: names) m =
  if negb (Nat.eqb i 0) then
    match index_slice match_ i with
    | Ok v => rangeSubexpNames match_ (S i) names (<[name := v]> m)
    | Panic p => Panic p
    end
  else rangeSubexpNames match_ (S i) names m.
Proof. reflexivity. Qed.

(** The loop over the names: a name that occurs at an index past 0 is bound
    to the submatch at the last such index, and every other key keeps what
    the map held before the loop. *)
Lemma rangeSubexpNames_lookup (l : list string) (names : list string) :
  forall i m args,
    rangeSubexpNames (Some l) i names m = Ok args ->
    (forall k name v,
        names !! k = Some name -> 1 <= i + k -> l !! (i + k) = Some v ->
        (forall k', k < k' -> names !! k' <> Some name) ->
        args !! name = Some v)
    /\ (forall name,
          (forall k, 1 <= i + k -> names !! k <> Some name) ->
          args !! name = m !! name).
Proof.
  induction names as [|n names IH]; intros i m args Hrun.
  - simpl in Hrun. injection Hrun as <-. split; [intros k name v Hk; now rewrite lookup_nil in Hk | reflexivity].
  - rewrite rangeSubexpNames_cons in Hrun.
    destruct (Nat.eqb i 0) eqn:Hi; cbn [negb] in Hrun; cbv iota in Hrun.
    + apply Nat.eqb_eq in Hi; subst i.
      destruct (IH 1 m args Hrun) as [IHa IHb]. split.
      * intros [|k] name v Hk Hpos Hv Hlast; [lia |].
        apply (IHa k name v Hk); [lia | exact Hv |].
        intros k' Hlt. apply (Hlast (S k')). lia.
      * intros name Hno. apply IHb.
        intros k Hpos. apply (Hno (S k)). lia.
    + apply Nat.eqb_neq in Hi.
      destruct (index_slice (Some l) i) as [v0|p] eqn:Hv0; [|discriminate].
      apply index_slice_Some in Hv0.
      destruct (IH (S i) (<[n := v0]> m) args Hrun) as [IHa IHb]. split.
      * intros [|k] name v Hk Hpos Hv Hlast.
        -- simpl in Hk. injection Hk as ->. rewrite Nat.add_0_r in Hv.
           rewrite IHb.
           ++ rewrite lookup_insert_eq. congruence.
           ++ intros k _. apply (Hlast (S k)). lia.
        -- apply (IHa k name v Hk); [lia | |].
           ++ now replace (S i + k) with (i + S k) by lia.
           ++ intros k' Hlt. apply (Hlast (S k')). lia.
      * intros name Hno. rewrite IHb.
        -- apply lookup_insert_ne. intros ->. apply (Hno 0); [lia | reflexivity].
        -- intros k Hpos. apply (Hno (S k)). lia.
Qed.

Lemma SubexpNames_two (r : Regexp) :
  1 <= NumSubexp r ->
  exists n0 n1 names, SubexpNames r = n0 :: n1 :: names.
Proof.
  intros H. pose proof (SubexpNames_length r) as Hlen.
  destruct (SubexpNames r) as [|n0 [|n1 names]]; simpl in Hlen; try lia.
  now exists n0, n1, names.
Qed.

Lemma SubexpNames_one (r : Regexp) :
  NumSubexp r = 0 -> exists n0, SubexpNames r = [n0].
Proof.
  intros H. pose proof (SubexpNames_length r) as Hlen. rewrite H in Hlen.
  destruct (SubexpNames r) as [|n0 [|n1 names]]; simpl in Hlen; try lia.
  now exists n0.
Qed.

End SubexpMap.

(** X1: [regexpSubexpMatch] returns a map exactly when the string matches
    the pattern or the pattern has no group; on a string that does not match
    a pattern with a group it panics at the first index past 0, out of range
    of the nil slice. *)
Theorem regexpSubexpMatch_returns_iff (r : Regexp) (str : string) :
  ((exists args, regexpSubexpMatch r str = Ok args)
   <-> MatchString r str = true \/ NumSubexp r = 0)
  /\ (MatchString r str = false -> 1 <= NumSubexp r ->
      regexpSubexpMatch r str = Panic (IndexOutOfRange 1 0))
  /\ (NumSubexp r = 0 -> regexpSubexpMatch r str = Ok ∅).
Proof.
  assert (Hnil : MatchString r str = false -> 1 <= NumSubexp r ->
                 regexpSubexpMatch r str = Panic (IndexOutOfRange 1 0)).
  { intros Hno Hgroups. unfold regexpSubexpMatch, FindStringSubmatch.
    unfold MatchString in Hno. destruct (doExecute r str); [discriminate |].
    destruct (SubexpNames_two r Hgroups) as (n0 & n1 & names & ->). reflexivity. }
  assert (Hzero : NumSubexp r = 0 -> regexpSubexpMatch r str = Ok ∅).
  { intros Hz. unfold regexpSubexpMatch.
    destruct (SubexpNames_one r Hz) as (n0 & ->). reflexivity. }
  split; [|split; assumption].
  split.
  - intros [args Hargs].
    destruct (MatchString r str) eqn:Hm; [now left | right].
    destruct (NumSubexp r) as [|n] eqn:Hn; [reflexivity |].
    rewrite Hnil in Hargs; [discriminate | reflexivity | lia].
  - intros [Hm | Hz]; [now apply regexpSubexpMatch_ok | eauto].
Qed.

Lemma regexpSubexpMatch_returns_iff_witness :
  regexpSubexpMatch getDeployRegexp "<@U1> get deploy -n prod"
  = Panic (IndexOutOfRange 1 0).
Proof.
  apply (regexpSubexpMatch_returns_iff getDeployRegexp "<@U1> get deploy -n prod");
    [reflexivity | simpl; lia].
Defined.

(** X2: the map that [regexpSubexpMatch] returns on a match is keyed by the
    group names: a name is bound to the submatch of the last group that has
    it, the whole match at index 0 is never stored, and a key that names no
    group is absent. *)
Theorem regexpSubexpMatch_lookup (r : Regexp) (str : string) (args : gmap string string) :
  regexpSubexpMatch r str = Ok args ->
  MatchString r str = true ->
  exists match_,
    FindStringSubmatch r str = Some match_
    /\ (forall i name v,
          1 <= i -> SubexpNames r !! i = Some name -> match_ !! i = Some v ->
          (forall j, i < j -> SubexpNames r !! j <> Some name) ->
          args !! name = Some v)
    /\ (forall name,
          (forall i, 1 <= i -> SubexpNames r !! i <> Some name) ->
          args !! name = None).
Proof.
  intros Hargs Hm.
  destruct (FindStringSubmatch_guard r str Hm) as [l Hl].
  unfold regexpSubexpMatch in Hargs. rewrite Hl in Hargs.
  destruct (rangeSubexpNames_lookup l (SubexpNames r) 0 ∅ args Hargs) as [Ha Hb].
  exists l; split; [exact Hl | split].
  - intros i name v Hi Hname Hv Hlast. now apply (Ha i name v).
  - intros name Hno. rewrite (Hb name); [apply lookup_empty |].
    intros k Hk. now apply Hno.
Qed.

Lemma regexpSubexpMatch_lookup_witness :
  exists args,
    regexpSubexpMatch getPodRegexp "<@U1> kubectl get pods -n kube-system" = Ok args
    /\ args !! "pod" = None.
Proof.
  destruct (regexpSubexpMatch_ok getPodRegexp "<@U1> kubectl get pods -n kube-system")
    as [args Hargs]; [reflexivity |].
  exists args; split; [exact Hargs |].
  destruct (regexpSubexpMatch_lookup getPodRegexp
              "<@U1> kubectl get pods -n kube-system" args Hargs eq_refl)
    as (l & _ & _ & Habsent).
  apply Habsent.
  intros [|[|[|[|[|i]]]]] Hi; discriminate.
Defined.

(** * Further properties of the two patterns *)

Section PatternOccurrence.

Variable kind : ListKind.

Lemma kind_shape : forallb headShape (headsOf kind) = true.
Proof. now destruct kind. Qed.

Lemma kind_lang (w : string) :
  lang (patternOf kind) w -> existsb (HasPrefix w) (headsOf kind) = true.
Proof. destruct kind; [apply lang_deploy_heads | apply lang_pod_heads]. Qed.

Lemma kind_head (h x z : string) (pos : nat) :
  In h (headsOf kind) -> hasByte newline x = false -> lineEnd z ->
  exists g1 g2 g3,
    matchAt (patternOf kind) (h ++ (x ++ z)) pos =
    Some [ Some (pos, pos + (String.length h + String.length x)); g1; g2; g3;
           Some (pos + String.length h, pos + (String.length h + String.length x)) ].
Proof. destruct kind; [apply matchAt_deploy_head | apply matchAt_pod_head]. Qed.

Lemma kind_groups : NumSubexp (patternOf kind) = 4.
Proof. now destruct kind. Qed.

Lemma kind_names :
  SubexpNames (patternOf kind)
  = [EmptyString; EmptyString; EmptyString; EmptyString; "namespace"].
Proof. now destruct kind. Qed.

(** Every head ends with the flag. *)
Lemma head_flag (h : string) :
  In h (headsOf kind) -> h = take (String.length h - 4) h ++ " -n ".
Proof.
  destruct kind; simpl; intros H;
    repeat (destruct H as [<- | H]; [reflexivity |]); destruct H.
Qed.

(** A match begins exactly where a head begins. *)
Lemma matchAt_kind_iff (s : string) (pos : nat) :
  matchAt (patternOf kind) s pos <> None
  <-> exists h, In h (headsOf kind) /\ HasPrefix s h = true.
Proof.
  split.
  - apply (matchAt_begins _ _ kind_lang).
  - intros (h & Hin & Hp). rewrite (HasPrefix_split s h Hp).
    now apply (matchAt_head_some _ _ kind_head).
Qed.

Lemma matchAt_kind_pos (s : string) (pos pos' : nat) :
  matchAt (patternOf kind) s pos = None -> matchAt (patternOf kind) s pos' = None.
Proof.
  intros H. destruct (matchAt (patternOf kind) s pos') eqn:E; [exfalso | reflexivity].
  assert (Hs : matchAt (patternOf kind) s pos' <> None) by congruence.
  apply matchAt_kind_iff in Hs. apply (matchAt_kind_iff s pos) in Hs. contradiction.
Qed.

Lemma search_kind_pos (s : string) :
  forall pos pos',
    search (patternOf kind) s pos = None -> search (patternOf kind) s pos' = None.
Proof.
  induction s as [|c s IH]; intros pos pos' H; rewrite search_unfold in *.
  - destruct (matchAt (patternOf kind) EmptyString pos) eqn:E; [discriminate |].
    now rewrite (matchAt_kind_pos _ pos pos' E).
  - destruct (matchAt (patternOf kind) (String c s) pos) eqn:E; [discriminate |].
    rewrite (matchAt_kind_pos _ pos pos' E). now apply (IH (S pos)).
Qed.

(** A text in which a head occurs has a match. *)
Lemma search_occurs (pre h y : string) :
  In h (headsOf kind) ->
  forall pos, search (patternOf kind) (pre ++ (h ++ y)) pos <> None.
Proof.
  intros Hin. induction pre as [|c pre IH]; intros pos; rewrite search_unfold.
  - change (EmptyString ++ (h ++ y)) with (h ++ y).
    destruct (matchAt (patternOf kind) (h ++ y) pos) eqn:E; [discriminate |].
    now apply (matchAt_head_some _ _ kind_head) in E.
  - change (String c pre ++ (h ++ y)) with (String c (pre ++ (h ++ y))).
    destruct (matchAt (patternOf kind) _ pos); [discriminate | apply IH].
Qed.

(** A text that has a match splits at the first head: no match lies in the
    part before it. *)
Lemma search_first (s : string) :
  forall pos,
    search (patternOf kind) s pos <> None ->
    exists pre h y,
      In h (headsOf kind) /\ s = pre ++ (h ++ y)
      /\ search (patternOf kind) pre 0 = None.
Proof.
  induction s as [|c s IH]; intros pos H.
  - exfalso. apply H.
    now apply (search_no_k _ _ kind_shape kind_lang).
  - rewrite search_unfold in H.
    destruct (matchAt (patternOf kind) (String c s) pos) eqn:E.
    + assert (Hs : matchAt (patternOf kind) (String c s) pos <> None) by congruence.
      apply matchAt_kind_iff in Hs as (h & Hin & Hp).
      exists EmptyString, h, (drop (String.length h) (String c s)).
      split; [exact Hin | split; [now apply HasPrefix_split |]].
      now apply (search_no_k _ _ kind_shape kind_lang).
    + destruct (IH (S pos) H) as (pre & h & y & Hin & -> & Hpre).
      exists (String c pre), h, y. split; [exact Hin | split; [reflexivity |]].
      rewrite search_unfold.
      destruct (matchAt (patternOf kind) (String c pre) 0) eqn:E0.
      * exfalso.
        assert (Hs : matchAt (patternOf kind) (String c pre) 0 <> None) by congruence.
        apply matchAt_kind_iff in Hs as (h0 & Hin0 & Hp0).
        assert (Hne : matchAt (patternOf kind) (String c (pre ++ (h ++ y))) pos <> None).
        { apply matchAt_kind_iff. exists h0; split; [exact Hin0 |].
          now apply (HasPrefix_weaken h0 (String c pre) (h ++ y)). }
        contradiction.
      * now apply (search_kind_pos pre 0 1).
Qed.

Lemma MatchString_first (text : string) :
  MatchString (patternOf kind) text = true ->
  exists pre h y,
    In h (headsOf kind) /\ text = pre ++ (h ++ y)
    /\ MatchString (patternOf kind) pre = false.
Proof.
  unfold MatchString, doExecute. intros H.
  destruct (search (patternOf kind) text 0) eqn:E; [|discriminate].
  assert (Hs : search (patternOf kind) text 0 <> None) by congruence.
  destruct (search_first text 0 Hs) as (pre & h & y & Hin & Htext & Hpre).
  exists pre, h, y. now rewrite Hpre.
Qed.

Lemma MatchString_occurs (pre h y : string) :
  In h (headsOf kind) -> MatchString (patternOf kind) (pre ++ (h ++ y)) = true.
Proof.
  intros Hin. unfold MatchString, doExecute.
  pose proof (search_occurs pre h y Hin 0).
  now destruct (search (patternOf kind) (pre ++ (h ++ y)) 0).
Qed.

(** The namespace extracted from a text that matches. *)
Lemma namespaceOf_first (text : string) :
  MatchString (patternOf kind) text = true ->
  exists pre h y,
    In h (headsOf kind) /\ text = pre ++ (h ++ y)
    /\ MatchString (patternOf kind) pre = false
    /\ namespaceOf (patternOf kind) text = firstLine y.
Proof.
  intros H. destruct (MatchString_first text H) as (pre & h & y & Hin & -> & Hpre).
  exists pre, h, y. repeat split; try assumption.
  unfold namespaceOf.
  destruct (regexpSubexpMatch_command _ _ kind_shape kind_lang kind_head
              kind_groups kind_names pre h y Hin Hpre) as (args & -> & ->).
  reflexivity.
Qed.

End PatternOccurrence.

Lemma MatchString_iff_head_occurs_aux (kind : ListKind) (text : string) :
  MatchString (patternOf kind) text = true
  <-> exists h, In h (headsOf kind) /\ occursIn h text.
Proof.
  split.
  - intros H. destruct (MatchString_first kind text H) as (pre & h & y & Hin & -> & _).
    exists h; split; [exact Hin | now exists pre, y].
  - intros (h & Hin & pre & y & ->). now apply MatchString_occurs.
Qed.

(** X3: a text matches a command pattern exactly when one of the heads of
    that pattern occurs in it, wherever in the text and whatever follows:
    for the workload pattern "k get deploy -n ", "kubectl get deploy -n " and
    their deploys, deployment and deployments variants, for the pod pattern
    "k get po -n ", "kubectl get po -n " and their pos, pod and pods
    variants. *)
Theorem MatchString_iff_head_occurs (kind : ListKind) (text : string) :
  MatchString (patternOf kind) text = true
  <-> exists h, In h (headsOf kind) /\ occursIn h text.
Proof. apply MatchString_iff_head_occurs_aux. Qed.

(** X4: the namespace extracted from any text that matches a command pattern
    is a single line that stands right after a flag " -n " of the text and
    runs to the end of its line: it has no line feed, and the text is some
    beginning, the flag, the namespace, and then nothing or a line feed. *)
Theorem namespace_is_rest_of_line (kind : ListKind) (text : string) :
  MatchString (patternOf kind) text = true ->
  hasByte newline (namespaceOf (patternOf kind) text) = false
  /\ exists a z,
       text = a ++ " -n " ++ namespaceOf (patternOf kind) text ++ z
       /\ lineEnd z.
Proof.
  intros H.
  destruct (namespaceOf_first kind text H) as (pre & h & y & Hin & -> & _ & ->).
  split; [apply firstLine_no_newline |].
  destruct (firstLine_split y) as (z & Hy & Hz).
  exists (pre ++ take (String.length h - 4) h), z. split; [|exact Hz].
  rewrite append_assoc, <- (append_assoc _ " -n "), <- (head_flag kind h Hin).
  now rewrite <- Hy.
Qed.

Lemma namespace_is_rest_of_line_witness :
  hasByte newline
    (namespaceOf getDeployRegexp ("<@U1> k get deploy -n prod" ++ nl ++ "thanks")) = false.
Proof.
  apply (namespace_is_rest_of_line Workloads
           ("<@U1> k get deploy -n prod" ++ nl ++ "thanks")).
  reflexivity.
Defined.

(** * Further properties of the dispatcher *)

Section LoopFacts.

Variable clientset : Clientset.
Variable botID : string.

Lemma replies_app (t l : Trace) :
  replies (t ++ l)%list = (replies t ++ replies l)%list.
Proof. apply omap_app. Qed.

Lemma queries_app (t l : Trace) :
  queries (t ++ l)%list = (queries t ++ queries l)%list.
Proof. apply omap_app. Qed.

Lemma addressedChannels_app (a b : list Event) :
  addressedChannels botID (a ++ b)%list
  = (addressedChannels botID a ++ addressedChannels botID b)%list.
Proof. apply omap_app. Qed.

Lemma not_healthy_deployments (ns : string) (err : error) :
  Deployments_List clientset ns = inl err -> ~ healthy clientset.
Proof. intros H Hh. destruct (Hh ns) as [[items Hi] _]. congruence. Qed.

Lemma not_healthy_pods (ns : string) (err : error) :
  Pods_List clientset ns = inl err -> ~ healthy clientset.
Proof. intros H Hh. destruct (Hh ns) as [_ [items Hi]]. congruence. Qed.

(** One round of the running loop: what it adds to the trace. *)
Lemma step_summary (t : Trace) (ev : Event) :
  exists st' log,
    step clientset botID (LoopRunning, t) ev = (st', (t ++ log)%list)
    /\ ((st' = LoopRunning
         /\ List.map snd (replies log) = addressedChannels botID [ev]
         /\ length (queries log) <= length (replies log)
         /\ ev <> InvalidAuthEvent)
        \/ (st' = LoopTerminated /\ ev = InvalidAuthEvent
            /\ replies log = [] /\ queries log = [])
        \/ (exists v c, st' = LoopAborted v /\ replies log = []
                        /\ length (queries log) = 1 /\ ~ healthy clientset
                        /\ addressedChannels botID [ev] = [c])).
Proof.
  destruct ev as [| |Text Channel|p u|v|ti co|code msg| |kind];
    try (eexists _, []; split; [rewrite app_nil_r; reflexivity |];
         left; repeat split; simpl; first [reflexivity | lia | discriminate]);
    try (eexists _, [_]; split; [reflexivity |];
         left; repeat split; simpl; first [reflexivity | lia | discriminate]).
  - unfold step, dispatch, addressedChannels; simpl omap.
    destruct (Contains Text (botTagString botID)) eqn:Htag.
    + rewrite (handleMessage_classify _ _ _ _ _ Htag). unfold perform.
      destruct (classify Text) as [ns|ns| |].
      * destruct (Deployments_List clientset ns) as [err|items] eqn:Hl.
        -- eexists _, [_]; split; [reflexivity |]. right; right.
           exists (PanicError err), Channel. repeat split.
           now apply (not_healthy_deployments ns err).
        -- eexists _, [_; _; _]; split; [reflexivity |]. left.
           repeat split; simpl; first [reflexivity | lia | discriminate].
      * destruct (Pods_List clientset ns) as [err|items] eqn:Hl.
        -- eexists _, [_]; split; [reflexivity |]. right; right.
           exists (PanicError err), Channel. repeat split.
           now apply (not_healthy_pods ns err).
        -- eexists _, [_; _; _]; split; [reflexivity |]. left.
           repeat split; simpl; first [reflexivity | lia | discriminate].
      * eexists _, [_]; split; [reflexivity |]. left.
        repeat split; simpl; first [reflexivity | lia | discriminate].
      * eexists _, [_]; split; [reflexivity |]. left.
        repeat split; simpl; first [reflexivity | lia | discriminate].
    + rewrite (handleMessage_ignored _ _ _ _ _ Htag).
      eexists _, []; split; [rewrite app_nil_r; reflexivity |].
      left; repeat split; simpl; first [reflexivity | lia | discriminate].
  - eexists _, [_]; split; [reflexivity |]. right; left. now repeat split.
Qed.

Lemma loopInvariant_step (seen : list Event) (s : LoopState * Trace) (ev : Event) :
  loopInvariant clientset botID seen s ->
  loopInvariant clientset botID (seen ++ [ev])%list (step clientset botID s ev).
Proof.
  destruct s as [st t]. intros ((pending & Hch & Hrun) & Hq & Hh & Hterm).
  cbn [fst snd] in *.
  destruct st as [| |v0].
  - specialize (Hrun eq_refl); subst pending. rewrite app_nil_r in Hch.
    destruct (step_summary t ev) as (st' & log & -> & Hcase).
    unfold loopInvariant; cbn [fst snd].
    rewrite replies_app, queries_app, addressedChannels_app, !length_app, List.map_app.
    cbn [isAborted] in Hq.
    destruct Hcase as [(-> & Hrep & Hqs & Hne) | [(-> & -> & Hrep & Hqs)
                                                 | (v & c & -> & Hrep & Hqs & Hnh & Hc)]].
    + split; [|split; [|split]].
      * exists []. rewrite app_nil_r, Hch, Hrep. now split.
      * cbn [isAborted]. lia.
      * reflexivity.
      * discriminate.
    + rewrite Hrep, Hqs. split; [|split; [|split]].
      * exists []. rewrite !app_nil_r. split; [exact Hch | reflexivity].
      * cbn [isAborted]. simpl. lia.
      * reflexivity.
      * intros _. apply in_or_app. right. now left.
    + rewrite Hrep, Hqs, Hc. split; [|split; [|split]].
      * exists [c]. rewrite app_nil_r. split; [now rewrite Hch | discriminate].
      * cbn [isAborted]. simpl. lia.
      * intros H. contradiction.
      * discriminate.
  - change (step clientset botID (LoopTerminated, t) ev) with (LoopTerminated, t).
    unfold loopInvariant; cbn [fst snd]. rewrite addressedChannels_app.
    split; [|split; [|split]]; try assumption.
    + exists (pending ++ addressedChannels botID [ev])%list.
      split; [now rewrite Hch, app_assoc | discriminate].
    + intros _. apply in_or_app. left. now apply Hterm.
  - change (step clientset botID (LoopAborted v0, t) ev) with (LoopAborted v0, t).
    unfold loopInvariant; cbn [fst snd]. rewrite addressedChannels_app.
    split; [|split; [|split]]; try assumption.
    + exists (pending ++ addressedChannels botID [ev])%list.
      split; [now rewrite Hch, app_assoc | discriminate].
    + discriminate.
Qed.

Lemma loopInvariant_run (events : list Event) :
  forall seen s,
    loopInvariant clientset botID seen s ->
    loopInvariant clientset botID (seen ++ events)%list
      (fold_left (step clientset botID) events s).
Proof.
  induction events as [|ev events IH]; intros seen s H; simpl.
  - now rewrite app_nil_r.
  - replace (seen ++ ev :: events)%list with ((seen ++ [ev]) ++ events)%list
      by now rewrite <- app_assoc.
    apply IH. now apply loopInvariant_step.
Qed.

Lemma loopInvariant_mainLoop (events : list Event) :
  loopInvariant clientset botID events (mainLoop clientset botID events).
Proof.
  apply (loopInvariant_run events [] (LoopRunning, [])).
  repeat split; simpl; try lia; try discriminate.
  exists []. now split.
Qed.

End LoopFacts.

(** X5: over any sequence of events the replies go, in the order of
    arrival, to the channels of the messages that carry the bot's mention:
    the channels of the replies are a beginning of the channels of those
    messages, and all of them while the loop is still running. No reply
    goes to another channel, is sent twice or out of order. *)
Theorem replies_in_arrival_order
        (clientset : Clientset) (botID : string) (events : list Event) :
  exists pending,
    addressedChannels botID events
    = (List.map snd (replies (mainLoop clientset botID events).2) ++ pending)%list
    /\ ((mainLoop clientset botID events).1 = LoopRunning -> pending = []).
Proof. exact (proj1 (loopInvariant_mainLoop clientset botID events)). Qed.



(** X7: every list query of the loop is answered: the trace never holds
    more queries than replies, except for the one query whose failure
    aborted the loop. After a failed list call no further query is made. *)
Theorem queries_are_answered
        (clientset : Clientset) (botID : string) (events : list Event) :
  length (queries (mainLoop clientset botID events).2)
  <= length (replies (mainLoop clientset botID events).2)
     + (if isAborted (mainLoop clientset botID events).1 then 1 else 0).
Proof.
  exact (proj1 (proj2 (loopInvariant_mainLoop clientset botID events))).
Qed.

(** X8: handling a message makes an orchestration query exactly when the
    text carries the bot's mention and a head of one of the two command
    patterns occurs in it; a text without such a head, whatever else it
    says, never reaches the cluster. *)
Theorem query_iff_addressed_command
        (clientset : Clientset) (botID Text Channel : string) :
  queries (handleMessage clientset botID Text Channel []).2 <> []
  <-> Contains Text (botTagString botID) = true
      /\ exists kind h, In h (headsOf kind) /\ occursIn h Text.
Proof.
  destruct (Contains Text (botTagString botID)) eqn:Htag.
  - rewrite (handleMessage_classify _ _ _ _ _ Htag). unfold classify.
    destruct (MatchString getDeployRegexp Text) eqn:Hd.
    + split.
      * intros _. split; [reflexivity |]. exists Workloads.
        now apply (MatchString_iff_head_occurs_aux Workloads).
      * intros _. simpl.
        destruct (Deployments_List clientset _); discriminate.
    + destruct (MatchString getPodRegexp Text) eqn:Hp.
      * split.
        -- intros _. split; [reflexivity |]. exists Pods.
           now apply (MatchString_iff_head_occurs_aux Pods).
        -- intros _. simpl.
           destruct (Pods_List clientset _); discriminate.
      * split.
        -- destruct (Contains Text "help"); simpl; congruence.
        -- intros (_ & kind & h & Hin & Hocc). exfalso.
           assert (Hm : MatchString (patternOf kind) Text = true)
             by (apply (MatchString_iff_head_occurs_aux kind); eauto).
           destruct kind; simpl in Hm; congruence.
  - rewrite (handleMessage_ignored _ _ _ _ _ Htag). simpl.
    split; [congruence | intros [H _]; discriminate].
Qed.

Lemma Contains_occurs (s substr : string) :
  Contains s substr = true <-> occursIn substr s.
Proof.
  split.
  - induction s as [|c s IH]; rewrite Contains_unfold; intros H.
    + rewrite orb_false_r in H. exists EmptyString, (drop (String.length substr) EmptyString).
      now apply HasPrefix_split.
    + apply orb_true_iff in H as [H | H].
      * exists EmptyString, (drop (String.length substr) (String c s)).
        now apply HasPrefix_split.
      * destruct (IH H) as (a & b & ->). now exists (String c a), b.
  - intros (a & b & ->). induction a as [|c a IH].
    + change (EmptyString ++ (substr ++ b)) with (substr ++ b).
      apply Contains_front.
    + change (String c a ++ (substr ++ b)) with (String c (a ++ (substr ++ b))).
      rewrite Contains_unfold, IH. apply orb_true_r.
Qed.

(** X9: a message leaves the trace as it was exactly when the bot's mention
    token does not occur in its text; a message in which it occurs, at the
    start, in the middle or at the end, always causes an effect, a reply or
    the query of a list command. *)
Theorem trace_unchanged_iff_unaddressed
        (clientset : Clientset) (botID Text Channel : string) (t : Trace) :
  (handleMessage clientset botID Text Channel t).2 = t
  <-> ~ occursIn (botTagString botID) Text.
Proof.
  rewrite <- Contains_occurs.
  destruct (Contains Text (botTagString botID)) eqn:Htag.
  - rewrite (handleMessage_classify _ _ _ _ _ Htag). unfold perform.
    split; [|congruence]. intros H. exfalso.
    assert (Hlen : forall log : Trace, (t ++ log)%list = t -> length log = 0).
    { intros log Hl. apply (f_equal (@length Effect)) in Hl.
      rewrite length_app in Hl. lia. }
    destruct (classify Text) as [ns|ns| |]; simpl in H.
    + destruct (Deployments_List clientset ns); apply Hlen in H; discriminate.
    + destruct (Pods_List clientset ns); apply Hlen in H; discriminate.
    + apply Hlen in H; discriminate.
    + apply Hlen in H; discriminate.
  - rewrite (handleMessage_ignored _ _ _ _ _ Htag). split; [discriminate | reflexivity].
Qed.

(** * Further properties of the replies *)

Section ReplyFacts.

Lemma workloadLines_app (l1 l2 : list Deployment) :
  workloadLines (l1 ++ l2)%list = workloadLines l1 ++ workloadLines l2.
Proof.
  unfold workloadLines. induction l1 as [|d l1 IH]; simpl; [reflexivity |].
  now rewrite IH, !append_assoc.
Qed.

Lemma formatDeployments_workloadLines (items : list Deployment) :
  formatDeployments items = "```" ++ nl ++ workloadLines items ++ "```".
Proof.
  unfold formatDeployments, fence, workloadLines.
  rewrite (builder_loop (fun d => Deployment_Name d ++ nl)), !append_assoc.
  reflexivity.
Qed.

Lemma workloadLines_length (items : list Deployment) :
  String.length (workloadLines items)
  = fold_right (fun d n => S (String.length (Deployment_Name d) + n)) 0 items.
Proof.
  unfold workloadLines. induction items as [|d items IH]; [reflexivity |].
  simpl fold_right. rewrite !length_append, IH.
  change (String.length nl) with 1. lia.
Qed.

Lemma append_inv_head (a x y : string) : a ++ x = a ++ y -> x = y.
Proof.
  induction a as [|c a IH]; simpl; intros H; [exact H |].
  injection H as H. now apply IH.
Qed.

Lemma hasByte_workloadLines_cons (d : Deployment) (l : list Deployment) (tail : string) :
  hasByte newline (workloadLines (d :: l) ++ tail) = true.
Proof.
  unfold workloadLines; simpl fold_right.
  rewrite !hasByte_append.
  change (hasByte newline nl) with true.
  now rewrite orb_true_r.
Qed.

(** The lines of two listings with a closing fence agree only when the
    names agree, for names without a line feed. *)
Lemma workloadLines_inj (l1 : list Deployment) :
  forall l2,
    Forall (fun d => hasByte newline (Deployment_Name d) = false) l1 ->
    Forall (fun d => hasByte newline (Deployment_Name d) = false) l2 ->
    workloadLines l1 ++ "```" = workloadLines l2 ++ "```" ->
    List.map Deployment_Name l1 = List.map Deployment_Name l2.
Proof.
  induction l1 as [|d1 l1 IH]; intros [|d2 l2] H1 H2 Heq.
  - reflexivity.
  - apply (f_equal (hasByte newline)) in Heq.
    rewrite hasByte_workloadLines_cons in Heq. discriminate.
  - apply (f_equal (hasByte newline)) in Heq.
    rewrite hasByte_workloadLines_cons in Heq. discriminate.
  - inversion H1 as [|? ? Hd1 Hl1]; inversion H2 as [|? ? Hd2 Hl2]; subst.
    unfold workloadLines in Heq; simpl fold_right in Heq.
    fold (workloadLines l1) in Heq. fold (workloadLines l2) in Heq.
    rewrite !append_assoc in Heq.
    assert (Hname : Deployment_Name d1 = Deployment_Name d2).
    { apply (f_equal firstLine) in Heq.
      rewrite !firstLine_append in Heq; try assumption;
        right; eexists; reflexivity. }
    rewrite Hname in Heq. apply append_inv_head in Heq.
    injection Heq as Heq.
    simpl. rewrite Hname. f_equal. now apply IH.
Qed.

Lemma filter_length_all {A} (f : A -> bool) (l : list A) :
  length (List.filter f l) = length l <-> forallb f l = true.
Proof.
  induction l as [|a l IH]; simpl; [tauto |].
  pose proof (filter_length_le f l).
  destruct (f a); simpl.
  - rewrite <- IH. lia.
  - split; [lia | discriminate].
Qed.

Lemma filter_length_none {A} (f : A -> bool) (l : list A) :
  length (List.filter f l) = 0 <-> forallb (fun a => negb (f a)) l = true.
Proof.
  induction l as [|a l IH]; simpl; [tauto |].
  destruct (f a); simpl; [split; [lia | discriminate] | exact IH].
Qed.

End ReplyFacts.

(** X10: the reply to a workload listing is, for every list, the opening
    fence line, one line per workload with just its name, in list order, and
    the closing fence; nothing is dropped or cut short: every name of the
    list occurs in the reply as a line, the reply of the empty list is the
    two fences, and its length is 7 bytes plus the length of each name and
    its line feed. *)
Theorem formatDeployments_lines (items : list Deployment) :
  formatDeployments items = "```" ++ nl ++ workloadLines items ++ "```"
  /\ (forall d, In d items -> occursIn (Deployment_Name d ++ nl) (formatDeployments items))
  /\ (items = [] -> formatDeployments items = "```" ++ nl ++ "```")
  /\ String.length (formatDeployments items)
     = 7 + fold_right (fun d n => S (String.length (Deployment_Name d) + n)) 0 items.
Proof.
  split; [apply formatDeployments_workloadLines | split; [|split]].
  - intros d Hin. apply in_split in Hin as (l1 & l2 & ->).
    rewrite formatDeployments_workloadLines, workloadLines_app.
    exists ("```" ++ nl ++ workloadLines l1), (workloadLines l2 ++ "```").
    unfold workloadLines at 2; simpl fold_right. fold (workloadLines l2).
    now rewrite !append_assoc.
  - intros ->. reflexivity.
  - rewrite formatDeployments_workloadLines, !length_append, workloadLines_length.
    change (String.length "```") with 3. change (String.length nl) with 1. lia.
Qed.

(** X11: for workload names without a line feed the reply determines the
    listing: two lists with the same reply have the same names in the same
    order. *)
Theorem formatDeployments_injective (items1 items2 : list Deployment) :
  Forall (fun d => hasByte newline (Deployment_Name d) = false) items1 ->
  Forall (fun d => hasByte newline (Deployment_Name d) = false) items2 ->
  formatDeployments items1 = formatDeployments items2 ->
  List.map Deployment_Name items1 = List.map Deployment_Name items2.
Proof.
  intros H1 H2 Heq.
  rewrite !formatDeployments_workloadLines in Heq.
  apply (append_inv_head "```"), (append_inv_head nl) in Heq.
  now apply (workloadLines_inj items1 items2).
Qed.

Lemma formatDeployments_injective_witness :
  List.map Deployment_Name apiWorker = [ "api"; "worker" ].
Proof.
  apply (formatDeployments_injective apiWorker
           [ {| Deployment_Name := "api" |}; {| Deployment_Name := "worker" |} ]);
    [repeat constructor | repeat constructor | reflexivity].
Defined.

(** X12: the running count of a pod line equals the total exactly when every
    container status of the pod is running, and it is 0 exactly when none
    is. *)
Theorem running_count_extremes (po : Pod) :
  (len (ContainerStatuses (Status po)) <= max_int)%Z ->
  (runningContainers po = len (ContainerStatuses (Status po))
   <-> forallb isRunning (ContainerStatuses (Status po)) = true)
  /\ (runningContainers po = 0%Z
      <-> forallb (fun c => negb (isRunning c)) (ContainerStatuses (Status po)) = true).
Proof.
  intros H. rewrite (runningContainers_count po H). unfold runningCount, len.
  rewrite <- filter_length_all, <- filter_length_none. lia.
Qed.

Lemma running_count_extremes_witness :
  runningContainers api1 <> len (ContainerStatuses (Status api1))
  /\ runningContainers web0 = 0%Z.
Proof.
  split.
  - destruct (running_count_extremes api1) as [Hall _];
      [vm_compute; discriminate |].
    intros H. apply Hall in H. discriminate.
  - destruct (running_count_extremes web0) as [_ Hnone];
      [vm_compute; discriminate |].
    now apply Hnone.
Defined.

(** * One line per item *)

Section LineCount.

Lemma countByte_append (c : ascii) (a b : string) :
  countByte c (a ++ b) = countByte c a + countByte c b.
Proof.
  induction a as [|x a IH]; simpl; [reflexivity |]. rewrite IH. lia.
Qed.

Lemma countByte_absent (c : ascii) (s : string) :
  hasByte c s = false -> countByte c s = 0.
Proof.
  induction s as [|x s IH]; simpl; [reflexivity |].
  intros H. apply orb_false_iff in H as [Hx Hs]. now rewrite Hx, IH.
Qed.

Lemma string_of_uint_no_newline (d : Decimal.uint) :
  hasByte newline (NilEmpty.string_of_uint d) = false.
Proof. induction d; simpl; auto. Qed.

(** [strconv.Itoa] writes a sign and digits only. *)
Lemma Itoa_no_newline (z : Z) : countByte newline (Itoa z) = 0.
Proof.
  apply countByte_absent. unfold Itoa, NilZero.string_of_int, NilZero.string_of_uint.
  destruct (Z.to_int z) as [d | d]; destruct d; simpl;
    try reflexivity; apply string_of_uint_no_newline.
Qed.

Lemma podLine_one_line (po : Pod) :
  hasByte newline (Pod_Name po) = false ->
  hasByte newline (Phase (Status po)) = false ->
  countByte newline (podLine po) = 1.
Proof.
  intros Hn Hp. unfold podLine.
  rewrite !countByte_append, !Itoa_no_newline.
  rewrite (countByte_absent _ _ Hn), (countByte_absent _ _ Hp). reflexivity.
Qed.

End LineCount.

(** X13: the reply to a workload listing has one line per workload between
    the two fence lines: for names without a line feed the reply holds
    exactly one line feed per item and the one of the opening fence. *)
Theorem formatDeployments_line_count (items : list Deployment) :
  Forall (fun d => hasByte newline (Deployment_Name d) = false) items ->
  countByte newline (formatDeployments items) = 1 + length items.
Proof.
  intros H. rewrite formatDeployments_workloadLines, !countByte_append.
  change (countByte newline "```") with 0. change (countByte newline nl) with 1.
  assert (Hl : countByte newline (workloadLines items) = length items).
  { unfold workloadLines.
    induction H as [|d items Hd _ IH]; [reflexivity |]. simpl fold_right.
    rewrite !countByte_append, IH, (countByte_absent _ _ Hd). reflexivity. }
  rewrite Hl. lia.
Qed.

Lemma formatDeployments_line_count_witness :
  countByte newline (formatDeployments apiWorker) = 3.
Proof.
  apply (formatDeployments_line_count apiWorker). repeat constructor.
Defined.

(** X14: the reply to a pod listing has one line per pod between the two
    fence lines: for names and phases without a line feed it holds exactly
    one line feed per pod and the one of the opening fence, whatever the
    container counts are. *)
Theorem formatPods_line_count (items : list Pod) :
  Forall (fun po => hasByte newline (Pod_Name po) = false
                    /\ hasByte newline (Phase (Status po)) = false) items ->
  countByte newline (formatPods items) = 1 + length items.
Proof.
  intros H. unfold formatPods, fence.
  rewrite builder_loop, !countByte_append.
  change (countByte newline "```") with 0. change (countByte newline nl) with 1.
  change (countByte newline EmptyString) with 0.
  assert (Hl : countByte newline
                 (fold_right (fun po rest => podLine po ++ rest) EmptyString items)
               = length items).
  { induction H as [|po items [Hn Hp] _ IH]; [reflexivity |]. simpl fold_right.
    rewrite countByte_append, IH, (podLine_one_line po Hn Hp). reflexivity. }
  rewrite Hl. lia.
Qed.

Lemma formatPods_line_count_witness :
  countByte newline (formatPods [api1; web0]) = 3.
Proof.
  apply (formatPods_line_count [api1; web0]). repeat constructor.
Defined.
